(** * AFI-Extractor: the line parser of [run_all.py]

    A shallow embedding of the text normalizer, the annotation extractor,
    the section state machine and the item associator of [run_all.py],
    with the properties its design document states about them, and of the
    readers and the sheet helpers around them.

    Python strings are sequences of Unicode code points: a character is a
    code point in [N], a string is a [list N].  The ASCII block of the
    Unicode tables the program consults ([unicodedata.normalize], [\w],
    [\d], [int], [str.capitalize]) is written out; what the tables say
    outside ASCII is a parameter of the development ([UnicodeData]). *)

From Stdlib Require Import NArith ZArith Ascii String DecimalString List Bool Lia Sorted.
From stdpp Require Import gmap list.

Local Open Scope nat_scope.

(** ** Strings *)

Abbreviation str := (list N) (only parsing).

(** [u "abc"] is the Python string ["abc"] (ASCII literals only). *)
Definition u (s : string) : list N := List.map N_of_ascii (list_ascii_of_string s).
Arguments u s%_string.

Definition truthy (s : str) : bool := match s with [] => false | _ :: _ => true end.

Definition is_some {A} (o : option A) : bool := match o with Some _ => true | None => false end.

(** [c in s] for a one-character [c]. *)
Definition contains (c : N) (s : str) : bool := existsb (N.eqb c) s.

(** [s[a:b]] for [0 <= a], [0 <= b]. *)
Definition slice (s : str) (a b : nat) : str := take (b - a) (drop a s).

(** [sep.join(parts)] *)
Fixpoint join (sep : str) (parts : list str) : str :=
  match parts with
  | [] => []
  | [p] => p
  | p :: rest => p ++ sep ++ join sep rest
  end.

(** [s.find(c, start)] for a one-character [c]: [None] stands for [-1]. *)
Fixpoint find_from (c : N) (s : str) (start i : nat) : option nat :=
  match s with
  | [] => None
  | x :: r => if (start <=? i) && (x =? c)%N then Some i else find_from c r start (S i)
  end.

Definition find (c : N) (s : str) (start : nat) : option nat := find_from c s start 0.

(** [s.split(c, 1)] for a one-character [c]: the part before the first [c]
    and, when there is a [c], the part after it. *)
Fixpoint split1 (c : N) (s : str) : str * option str :=
  match s with
  | [] => ([], None)
  | x :: r =>
      if (x =? c)%N then ([], Some r)
      else let '(a, b) := split1 c r in (x :: a, b)
  end.

(** [s.replace(c, new)] for a one-character [c]. *)
Definition replace1 (c : N) (new : str) (s : str) : str :=
  flat_map (fun x => if (x =? c)%N then new else [x]) s.

Fixpoint starts_with (p s : str) : bool :=
  match p, s with
  | [], _ => true
  | _ :: _, [] => false
  | a :: p', b :: s' => (a =? b)%N && starts_with p' s'
  end.

(** [s.replace(old, new)]: occurrences are replaced from the left and do not
    overlap; [skip] counts the characters of an occurrence still to pass. *)
Fixpoint replace_from (old new : str) (skip : nat) (s : str) : str :=
  match s with
  | [] => []
  | c :: r =>
      match skip with
      | S k => replace_from old new k r
      | 0 =>
          if starts_with old s then new ++ replace_from old new (length old - 1) r
          else c :: replace_from old new 0 r
      end
  end.

Definition replace (old new s : str) : str :=
  match old with
  | [] => new ++ flat_map (fun c => c :: new) s
  | _ :: _ => replace_from old new 0 s
  end.

(** [lstrip], [rstrip] and [strip] over a set of characters. *)
Fixpoint lstrip_by (p : N -> bool) (s : str) : str :=
  match s with
  | [] => []
  | c :: r => if p c then lstrip_by p r else s
  end.

Fixpoint rstrip_by (p : N -> bool) (s : str) : str :=
  match s with
  | [] => []
  | c :: r =>
      match rstrip_by p r with
      | [] => if p c then [] else [c]
      | r' => c :: r'
      end
  end.

Definition strip_by (p : N -> bool) (s : str) : str := rstrip_by p (lstrip_by p s).

(** The maximal prefix of [s] in the class [p], and the rest. *)
Fixpoint span (p : N -> bool) (s : str) : str * str :=
  match s with
  | [] => ([], [])
  | c :: r => if p c then let '(a, b) := span p r in (c :: a, b) else ([], s)
  end.

(** ** Character classes *)

Definition SP : N := 32.
Definition TAB : N := 9.
Definition LF : N := 10.
Definition CR : N := 13.
Definition HYPHEN : N := 45.
Definition LPAREN : N := 40.
Definition RPAREN : N := 41.
Definition COLON : N := 58.
Definition DOT : N := 46.
Definition UNDERSCORE : N := 95.
Definition EN_DASH : N := 0x2013.
Definition EM_DASH : N := 0x2014.

(** [str.isspace] on one character, which is also the class [\s] of [re]
    on [str] patterns: the white-space code points of the Unicode database. *)
Definition isspace (c : N) : bool :=
  ((9 <=? c) && (c <=? 13) || (28 <=? c) && (c <=? 32) || (c =? 0x85) || (c =? 0xA0)
   || (c =? 0x1680) || (0x2000 <=? c) && (c <=? 0x200A) || (c =? 0x2028) || (c =? 0x2029)
   || (c =? 0x202F) || (c =? 0x205F) || (c =? 0x3000))%N.

(** [s.strip()] *)
Definition strip (s : str) : str := strip_by isspace s.

Definition is_ascii (c : N) : bool := (c <? 128)%N.
Definition is_ascii_digit (c : N) : bool := ((48 <=? c) && (c <=? 57))%N.
Definition is_ascii_upper (c : N) : bool := ((65 <=? c) && (c <=? 90))%N.
Definition is_ascii_lower (c : N) : bool := ((97 <=? c) && (c <=? 122))%N.
Definition ascii_lower (c : N) : N := if is_ascii_upper c then (c + 32)%N else c.
Definition ascii_upper (c : N) : N := if is_ascii_lower c then (c - 32)%N else c.

(** ** NORMALIZATION constants *)

Definition DASH_CHARS : str := [0x2010; 0x2011; 0x2012; 0x2013; 0x2014; 0x2015; 0x2212; 45]%N.
Definition ZERO_WIDTH : str := [0x200b; 0x200c; 0x200d; 0x2060; 0xFEFF; 0x200e; 0x200f]%N.
Definition NBSP : N := 0xA0.

(** [for ch in chars: s = s.replace(ch, "")] *)
Definition remove_all (chars : str) (s : str) : str :=
  fold_left (fun s c => replace1 c [] s) chars s.

(** [DASH_RE.sub("-", s)]: the pattern is the character class of [DASH_CHARS]. *)
Definition DASH_RE_sub (s : str) : str :=
  List.map (fun c => if contains c DASH_CHARS then HYPHEN else c) s.

Definition is_blank (c : N) : bool := (c =? SP)%N || (c =? TAB)%N.

(** [re.sub(r"[ \t]+", " ", s)]: every maximal run of spaces and tabs
    becomes one space (the last character of a run emits it). *)
Fixpoint sub_blank_runs (s : str) : str :=
  match s with
  | [] => []
  | c :: r =>
      if is_blank c then
        match r with
        | d :: _ => if is_blank d then sub_blank_runs r else SP :: sub_blank_runs r
        | [] => [SP]
        end
      else c :: sub_blank_runs r
  end.

(** [re.sub(r"\s{2,}", " ", s)]: every maximal run of two or more
    white-space characters becomes one space; a lone one stays as it is.
    [inrun] holds inside a run whose space has been emitted. *)
Fixpoint sub_space_runs (inrun : bool) (s : str) : str :=
  match s with
  | [] => []
  | c :: r =>
      if isspace c then
        if inrun then sub_space_runs true r
        else match r with
             | d :: _ => if isspace d then SP :: sub_space_runs true r
                         else c :: sub_space_runs false r
             | [] => [c]
             end
      else c :: sub_space_runs false r
  end.

Definition TIDY_CHARS : str := u " -.()[]:;".

(** [tidy] *)
Definition tidy (s : str) : str :=
  let s := sub_space_runs false s in
  strip (strip_by (fun c => contains c TIDY_CHARS) s).

(** ** The Unicode database outside ASCII

    [unicodedata.normalize("NFKC", s)] leaves an ASCII string as it is; the
    ASCII characters of [\w] are the letters, the digits and the underscore;
    those of [\d] are the ten digits; [str.capitalize] on an ASCII string
    upper-cases its first character and lower-cases the rest.  The fields of
    [UnicodeData] say what the database answers elsewhere. *)
Record UnicodeData := {
  nfkc : list N -> list N;          (* NFKC of a string with a non-ASCII character *)
  isalnum_hi : N -> bool;           (* [str.isalnum] of a non-ASCII character *)
  isdecimal_hi : N -> bool;         (* [str.isdecimal] of a non-ASCII character *)
  digit_hi : N -> N;                (* the digit value of a non-ASCII decimal *)
  capitalize_hi : list N -> list N  (* [capitalize] of a string with a non-ASCII character *)
}.

Section Unicode.

Variable ucd : UnicodeData.

Definition normalize_NFKC (s : str) : str :=
  if forallb is_ascii s then s else nfkc ucd s.

(** The class [\w]: [isalnum] or the underscore. *)
Definition is_word (c : N) : bool :=
  if is_ascii c then is_ascii_digit c || is_ascii_upper c || is_ascii_lower c || (c =? UNDERSCORE)%N
  else isalnum_hi ucd c.

(** The class [\d]: the decimal digits, none of which is white space. *)
Definition is_decimal (c : N) : bool :=
  if is_ascii c then is_ascii_digit c else negb (isspace c) && isdecimal_hi ucd c.

Definition digit_value (c : N) : N :=
  if is_ascii c then (c - 48)%N else digit_hi ucd c.

(** [int(s)] for a string of decimal digits (of fewer digits than the
    interpreter's limit on integer strings). *)
Definition py_int (s : str) : N :=
  fold_left (fun acc c => (10 * acc + digit_value c)%N) s 0%N.

Definition ascii_capitalize (s : str) : str :=
  match s with
  | [] => []
  | c :: r => ascii_upper c :: List.map ascii_lower r
  end.

(** [s.capitalize()] *)
Definition capitalize (s : str) : str :=
  if forallb is_ascii s then ascii_capitalize s else capitalize_hi ucd s.

(** [norm] *)
Definition norm (s : str) : str :=
  let s := normalize_NFKC s in
  let s := remove_all ZERO_WIDTH s in
  let s := replace1 CR [LF] (replace1 NBSP [SP] s) in
  let s := sub_blank_runs s in
  let s := DASH_RE_sub s in
  strip s.

End Unicode.

(** ** Regular expressions

    The patterns of the program, each as the function its regular expression
    computes under the leftmost, backtracking semantics of [re]. *)

(** [re.finditer]: matches are searched from the left, and after a match the
    search resumes at its end (one further when the match is empty).
    [match_at pos] is the end of the match that starts at [pos], if any. *)
Fixpoint finditer (match_at : nat -> option nat) (fuel pos : nat) : list (nat * nat) :=
  match fuel with
  | 0 => []
  | S f =>
      match match_at pos with
      | Some e => (pos, e) :: finditer match_at f (if e =? pos then S pos else e)
      | None => finditer match_at f (S pos)
      end
  end.

(** [m_last = None; for m in re.finditer(...): m_last = m] *)
Definition last_match (match_at : nat -> option nat) (s : str) : option (nat * nat) :=
  last (finditer match_at (S (length s)) 0).

(** [\(([^)]*?)\)] at [pos]: an opening parenthesis there, up to the first
    closing parenthesis after it. *)
Definition paren_at (s : str) (pos : nat) : option nat :=
  match drop pos s with
  | c :: r =>
      if (c =? LPAREN)%N then
        match find RPAREN r 0 with
        | Some k => Some (pos + k + 2)
        | None => None
        end
      else None
  | [] => None
  end.

(** [re.fullmatch(r"\([^)]*\)", s)] *)
Definition fullmatch_paren (s : str) : bool :=
  match s with
  | c :: r =>
      (c =? LPAREN)%N &&
      match find RPAREN r 0 with
      | Some k => S k =? length r
      | None => false
      end
  | [] => false
  end.

(** A lower-case ASCII letter [l] of a pattern compiled with [(?i)] matches
    the characters that lower-case to it: its two ASCII forms and, for [i],
    [s] and [k], the four letters U+0130, U+0131, U+017F and U+212A. *)
Definition ci_char (l c : N) : bool :=
  ((ascii_lower c =? l) || (l =? 105) && ((c =? 0x130) || (c =? 0x131))
   || (l =? 115) && (c =? 0x17F) || (l =? 107) && (c =? 0x212A))%N.

(** A literal (in lower case) matched under [(?i)]: the rest of the string. *)
Fixpoint eat_ci (lit s : str) : option str :=
  match lit, s with
  | [], _ => Some s
  | _ :: _, [] => None
  | l :: lit', c :: s' => if ci_char l c then eat_ci lit' s' else None
  end.

Definition eat_opt (p : N -> bool) (s : str) : str :=
  match s with
  | c :: r => if p c then r else s
  | [] => []
  end.

Definition skip_ws (s : str) : str := lstrip_by isspace s.

Definition ends_with_lf (s : str) : bool :=
  match last s with
  | Some c => (c =? LF)%N
  | None => false
  end.

(** [\s*(.+)$] ([min_ws = 0]) and [\s+(.+)$] ([min_ws = 1]) on the rest of a
    string: [$] is the end, or the position before a final newline; the white
    space is greedy but gives back its last character when nothing else is
    left for the group; the group holds no newline. *)
Definition rest_of_line (min_ws : nat) (s : str) : option str :=
  let e := if ends_with_lf s then length s - 1 else length s in
  let lead := length (fst (span isspace s)) in
  let p := Nat.min lead (e - 1) in
  let g := slice s p e in
  if (min_ws <=? p) && truthy g && negb (contains LF g) then Some g else None.

(** [\s*(.+?)\s*$] on the rest of a string: the group is the rest without
    its surrounding white space and holds no newline; when the rest is all
    white space the group is its last character other than a newline. *)
Definition lazy_rest_of_line (s : str) : option str :=
  let body := strip s in
  if truthy body then
    if contains LF body then None else Some body
  else
    match last (List.filter (fun c => negb (c =? LF)%N) s) with
    | Some c => Some [c]
    | None => None
    end.

(** [[0-9]+(?:\.[0-9]+)*]: the group and the rest of the string. *)
Fixpoint dotted_groups (fuel : nat) (s : str) : str * str :=
  match fuel, s with
  | S f, c :: r =>
      if (c =? DOT)%N then
        let '(d, r') := span is_ascii_digit r in
        if truthy d then let '(g, r'') := dotted_groups f r' in (c :: d ++ g, r'')
        else ([], s)
      else ([], s)
  | _, _ => ([], s)
  end.

Definition dotted_number (s : str) : option (str * str) :=
  let '(d, r) := span is_ascii_digit s in
  if truthy d then let '(g, r') := dotted_groups (length r) r in Some (d ++ g, r')
  else None.

Section Patterns.

Variable ucd : UnicodeData.

(** [\b] at index [i]: exactly one of the characters before and after is a
    word character (a missing one is not). *)
Definition word_at (s : str) (i : nat) : bool :=
  match s !! i with
  | Some c => is_word ucd c
  | None => false
  end.

Definition word_boundary (s : str) (i : nat) : bool :=
  xorb (match i with 0 => false | S k => word_at s k end) (word_at s i).

(** [(?i)\b(major|other)\b] at [pos] *)
Definition kw_at (s : str) (pos : nat) : option nat :=
  if word_boundary s pos
     && (is_some (eat_ci (u "major") (drop pos s)) || is_some (eat_ci (u "other") (drop pos s)))
     && word_boundary s (pos + 5)
  then Some (pos + 5) else None.

(** [\s+]: the rest after one or more white-space characters. *)
Definition ws1 (s : str) : option str :=
  match s with
  | c :: r => if isspace c then Some (skip_ws r) else None
  | [] => None
  end.

(** [\s*$]: nothing but white space is left. *)
Definition eol (s : str) : option unit :=
  if truthy (skip_ws s) then None else Some ().

Definition is_colon (c : N) : bool := (c =? COLON)%N.

(** [RE_AFI_HDR.match(line)] *)
Definition RE_AFI_HDR (s : str) : bool :=
  is_some (
    s1 ← eat_ci (u "area") (skip_ws s);
    s2 ← ws1 (eat_opt (ci_char 115) s1);
    s3 ← match eat_ci (u "for") s2 with
         | Some r => Some r
         | None => eat_ci (u "of") s2
         end;
    s4 ← ws1 s3;
    s5 ← eat_ci (u "improvement") s4;
    eol (eat_opt is_colon (skip_ws s5))).

(** [RE_RECO_HDR.match(line)] *)
Definition RE_RECO_HDR (s : str) : bool :=
  is_some (
    s1 ← eat_ci (u "recommendation") (skip_ws s);
    eol (eat_opt is_colon (skip_ws (eat_opt (ci_char 115) s1)))).

(** [RE_PROCESS.match(line)]: groups 1 and 2. *)
Definition RE_PROCESS (s : str) : option (str * str) :=
  s1 ← eat_ci (u "process") (skip_ws s);
  '(g1, s2) ← dotted_number
     (skip_ws (eat_opt (fun c => (c =? COLON)%N || (c =? HYPHEN)%N) (skip_ws s1)));
  g2 ← rest_of_line 1 s2;
  Some (g1, g2).

Definition is_separator (c : N) : bool :=
  ((c =? COLON) || (c =? HYPHEN) || (c =? EN_DASH) || (c =? EM_DASH))%N.

(** [RE_PROC_SIMPLE.match(line)]: group 1, and group 2 when the optional
    tail took part in the match. *)
Definition RE_PROC_SIMPLE (s : str) : option (str * option str) :=
  let s0 := skip_ws s in
  s1 ← match eat_ci (u "value") s0 with
       | Some r => Some r
       | None =>
           match eat_ci (u "operational") s0 with
           | Some r => Some r
           | None => eat_ci (u "business") s0
           end
       end;
  let q := length s - length s1 in
  let head := slice s (length s - length s0) q in
  if word_boundary s q then
    match
      match skip_ws s1 with
      | c :: r => if is_separator c then rest_of_line 0 r else None
      | [] => None
      end
    with
    | Some g2 => Some (head, Some g2)
    | None => if negb (truthy s1) || bool_decide (s1 = [LF]) then Some (head, None) else None
    end
  else None.

(** [RE_NUM_ITEM.match(line)]: groups 1 and 2. *)
Definition RE_NUM_ITEM (s : str) : option (str * str) :=
  let '(d, s1) := span (is_decimal ucd) (skip_ws s) in
  if truthy d then
    match skip_ws s1 with
    | c :: r =>
        if (c =? HYPHEN)%N then g2 ← lazy_rest_of_line r; Some (d, g2) else None
    | [] => None
    end
  else None.

End Patterns.

(** ** Classification/Entity extraction *)

Section Extractor.

Variable ucd : UnicodeData.

(** The classification and the entity of the parenthesized group
    [s[st:en]]: dashes normalized, split at the first hyphen, both sides
    tidied ([inside], [parts], [cls], [ent] in the source). *)
Definition annotation_fields (s : str) (st en : nat) : str * str :=
  let inside := strip (DASH_RE_sub (slice s (S st) (en - 1))) in
  let '(p0, p1) := split1 HYPHEN inside in
  (tidy p0, match p1 with Some p => tidy p | None => [] end).

(** The keyword half of [extract_ce_anywhere], from [m_kw = None] on. *)
Definition extract_ce_keyword (s : str) : str * str * str :=
  match last_match (kw_at ucd s) s with
  | Some (st, en) =>
      match find HYPHEN s st with
      | Some dash =>
          let cls := capitalize ucd (slice s st en) in
          let ent := tidy (drop (S dash) s) in
          if truthy ent then (tidy (take st s), cls, ent)
          else (tidy s, [], [])
      | None => (tidy s, [], [])
      end
  | None => (tidy s, [], [])
  end.

(** [extract_ce_anywhere] *)
Definition extract_ce_anywhere (text : str) : str * str * str :=
  let s := text in
  match last_match (paren_at s) s with
  | Some (st, en) =>
      let '(cls, ent) := annotation_fields s st en in
      if truthy cls || truthy ent then
        (tidy (strip (take st s ++ [SP] ++ drop en s)), cls, ent)
      else extract_ce_keyword s
  | None => extract_ce_keyword s
  end.

(** The [while] loop of [extract_ce_across_lines] over [line_list[j:]]: the
    lines appended to [buf] and the final value of [j]. *)
Fixpoint gather (ls : list str) (j : nat) : list str * nat :=
  match ls with
  | [] => ([], j)
  | l :: r =>
      if contains RPAREN l then ([l], j)
      else let '(b, j') := gather r (S j) in (l :: b, j')
  end.

(** [s.index(c)], called where [c in s] holds. *)
Definition index (c : N) (s : str) : nat := default 0 (find c s 0).

(** [extract_ce_across_lines] *)
Definition extract_ce_across_lines (line_list : list str) (idx : nat) (first_line : str)
  : str * str * str * Z :=
  let line := first_line in
  if contains LPAREN line && negb (contains RPAREN line) then
    let '(more, j) := gather (drop (S idx) line_list) (S idx) in
    let buf := drop (index LPAREN line) line :: more in
    let combined := norm ucd (join [SP] buf) in
    let j' := Z.min (Z.of_nat j) (Z.of_nat (length line_list) - 1) in
    match last_match (paren_at combined) combined with
    | Some (st, en) =>
        let '(cls, ent) := annotation_fields combined st en in
        let cleaned := norm ucd (replace (slice combined st en) [SP] first_line) in
        (tidy cleaned, cls, ent, j')
    | None => (tidy first_line, [], [], j')
    end
  else
    let '(clean, cls, ent) := extract_ce_anywhere first_line in
    (clean, cls, ent, Z.of_nat idx).

End Extractor.

(** ** The record sink and the parser state *)

(** The worksheet is the map from (row, column) to the value of the cell,
    for the cells written. *)

(** The columns [detect_columns] resolved. *)
Record columns := {
  col_afi : nat; col_class : nat; col_reco : nat;
  col_entity : nat; col_process : nat; col_file : nat
}.

(** The default positions of [detect_columns]. *)
Definition default_columns : columns :=
  {| col_afi := 1; col_class := 2; col_reco := 3; col_entity := 4; col_process := 5; col_file := 7 |}.

Definition column_list (cols : columns) : list nat :=
  [col_afi cols; col_class cols; col_reco cols; col_entity cols; col_process cols; col_file cols].

(** An AFI item: the dictionary [{"num": .., "text": .., "cls": .., "ent": ..}]. *)
Record afi := { num : option N; text : list N; cls : list N; ent : list N }.

Definition set_num (a : afi) (n : N) : afi :=
  {| num := Some n; text := text a; cls := cls a; ent := ent a |}.

(** The local variables of [process_file] that a loop iteration reads and
    writes, with the worksheet. *)
Record state := {
  ws : gmap (nat * nat) (list N);
  row : nat;
  in_afi : bool;
  in_reco : bool;
  process_label : list N;
  afis : list afi;
  recs : gmap (list N) (list N);
  cur_rec_num : option (list N);
  cur_rec_parts : list (list N);
  last_afi_idx : option nat
}.

(** [str(n)] for a natural number. *)
Definition py_str (n : N) : str := u (NilZero.string_of_uint (N.to_uint n)).

(** The separator of merged recommendation fragments. *)
Definition BAR : str := u " | ".

(** The separator of a process label, [" \u2013 "]. *)
Definition LABEL_SEP : str := [SP; EN_DASH; SP].

(** [recs.get(k, "")] *)
Definition recs_get (recs : gmap (list N) (list N)) (k : str) : str := default [] (recs !! k).

(** The fallback numbering: [seq = 1; for a in afis: if a["num"] is None: ...],
    from the current value of [seq]. *)
Fixpoint assign_from (seq : N) (items : list afi) : list afi :=
  match items with
  | [] => []
  | a :: r =>
      match num a with
      | None => set_num a seq :: assign_from (seq + 1) r
      | Some _ => a :: assign_from seq r
      end
  end.

Definition assign_fallback (items : list afi) : list afi := assign_from 1 items.

(** [int(x["num"])], the sort key; every number is set when it is taken. *)
Definition sort_key (a : afi) : N := default 0%N (num a).

(** [sorted(afis, key=...)]: the sort is stable, so among equal keys the
    order of [afis] is kept. *)
Fixpoint insert_by_key (a : afi) (l : list afi) : list afi :=
  match l with
  | [] => [a]
  | b :: r => if (sort_key a <=? sort_key b)%N then a :: l else b :: insert_by_key a r
  end.

Definition sorted (l : list afi) : list afi := fold_right insert_by_key [] l.

(** ** The core parser *)

Section Parser.

Variable ucd : UnicodeData.
Variable cols : columns.
Variable src_file : list N.   (* [path.name] *)

(** [write_row] *)
Definition write_row (ws : gmap (nat * nat) (list N)) (row : nat)
    (afi_text cls ent reco_text process_label : str) : gmap (nat * nat) (list N) :=
  let '(clean_afi, c2, e2) := extract_ce_anywhere ucd afi_text in
  let cls := if negb (truthy cls) && truthy c2 then c2 else cls in
  let ent := if negb (truthy ent) && truthy e2 then e2 else ent in
  let ws := <[(row, col_afi cols) := clean_afi]> ws in
  let ws := <[(row, col_class cols) := cls]> ws in
  let ws := <[(row, col_reco cols) := reco_text]> ws in
  let ws := <[(row, col_entity cols) := ent]> ws in
  let ws := <[(row, col_process cols) := process_label]> ws in
  <[(row, col_file cols) := src_file]> ws.

(** [flush_reco] *)
Definition flush_reco (st : state) : state :=
  let recs' :=
    match cur_rec_num st with
    | Some k =>
        let txt := join BAR (List.filter truthy (cur_rec_parts st)) in
        if truthy txt then
          let prev := recs_get (recs st) k in
          <[k := prev ++ (if truthy prev then BAR else []) ++ txt]> (recs st)
        else recs st
    | None => recs st
    end in
  {| ws := ws st; row := row st; in_afi := in_afi st; in_reco := in_reco st;
     process_label := process_label st; afis := afis st; recs := recs';
     cur_rec_num := None; cur_rec_parts := []; last_afi_idx := last_afi_idx st |}.

(** The second [for] loop of a flush: one row for each item, in the order
    given. *)
Fixpoint write_items (ws : gmap (nat * nat) (list N)) (row : nat)
    (recs : gmap (list N) (list N)) (label : str) (items : list afi)
  : gmap (nat * nat) (list N) * nat :=
  match items with
  | [] => (ws, row)
  | a :: r =>
      let n := py_str (sort_key a) in
      let rec := recs_get recs n in
      write_items (write_row ws row (text a) (cls a) (ent a) rec label) (S row) recs label r
  end.

(** The flush of a process block: [if afis or recs: ...], written twice in
    [process_file], at a process header and after the loop. *)
Definition flush_block (st : state) : state :=
  if negb (bool_decide (afis st = [])) || negb (bool_decide (recs st = ∅)) then
    let items := assign_fallback (afis st) in
    let '(ws', row') := write_items (ws st) (row st) (recs st) (process_label st) (sorted items) in
    {| ws := ws'; row := row'; in_afi := in_afi st; in_reco := in_reco st;
       process_label := process_label st; afis := items; recs := recs st;
       cur_rec_num := cur_rec_num st; cur_rec_parts := cur_rec_parts st;
       last_afi_idx := last_afi_idx st |}
  else st.

(** The label of the block a process header opens. *)
Definition header_label (m_proc : option (str * str)) (m_simple : option (str * option str)) : str :=
  match m_proc, m_simple with
  | Some (g1, g2), _ => g1 ++ LABEL_SEP ++ g2
  | None, Some (g1, g2) =>
      let head := capitalize ucd g1 in
      let tail := default [] g2 in
      head ++ (if truthy tail then LABEL_SEP ++ tail else [])
  | None, None => []
  end.

Definition set_sections (st : state) (a r : bool) (last : option nat) : state :=
  {| ws := ws st; row := row st; in_afi := a; in_reco := r;
     process_label := process_label st; afis := afis st; recs := recs st;
     cur_rec_num := cur_rec_num st; cur_rec_parts := cur_rec_parts st; last_afi_idx := last |}.

Definition set_reco (st : state) (rn : option str) (rp : list str) : state :=
  {| ws := ws st; row := row st; in_afi := in_afi st; in_reco := in_reco st;
     process_label := process_label st; afis := afis st; recs := recs st;
     cur_rec_num := rn; cur_rec_parts := rp; last_afi_idx := last_afi_idx st |}.

Definition set_afis (st : state) (items : list afi) (last : option nat) : state :=
  {| ws := ws st; row := row st; in_afi := in_afi st; in_reco := in_reco st;
     process_label := process_label st; afis := items; recs := recs st;
     cur_rec_num := cur_rec_num st; cur_rec_parts := cur_rec_parts st; last_afi_idx := last |}.

(** [afis.append(...)] and [last_afi_idx = len(afis) - 1] *)
Definition append_afi (st : state) (a : afi) : state :=
  set_afis st (afis st ++ [a]) (Some (length (afis st))).

(** An annotation-only line: the fields of the last item that are still
    empty take the values found. *)
Definition annotate (c e : str) (a : afi) : afi :=
  {| num := num a; text := text a;
     cls := if truthy (cls a) then cls a else c;
     ent := if truthy (ent a) then ent a else e |}.

(** One iteration of the [while] loop of [process_file] on [line = lines[i]]:
    the state after it and the next value of [i]. *)
Definition step (lines : list str) (i : nat) (line : str) (st : state) : state * nat :=
  let m_proc := RE_PROCESS line in
  let m_simple := RE_PROC_SIMPLE ucd line in
  if is_some m_proc || is_some m_simple then
    let st := flush_block (flush_reco st) in
    ({| ws := ws st; row := row st; in_afi := false; in_reco := false;
        process_label := header_label m_proc m_simple; afis := []; recs := ∅;
        cur_rec_num := cur_rec_num st; cur_rec_parts := cur_rec_parts st;
        last_afi_idx := None |}, S i)
  else if RE_AFI_HDR line then
    (set_sections (flush_reco st) true false None, S i)
  else if RE_RECO_HDR line then
    (set_reco (set_sections (flush_reco st) false true (last_afi_idx st)) None [], S i)
  else if in_afi st then
    if fullmatch_paren line then
      let '(_, c, e) := extract_ce_anywhere ucd line in
      match last_afi_idx st with
      | Some k =>
          if truthy c || truthy e then
            (set_afis st (alter (annotate c e) k (afis st)) (last_afi_idx st), S i)
          else (st, S i)
      | None => (st, S i)
      end
    else
      match RE_NUM_ITEM ucd line with
      | Some (g1, body) =>
          let '(clean, cls, ent, j) := extract_ce_across_lines ucd lines i body in
          (append_afi st {| num := Some (py_int ucd g1); text := clean; cls := cls; ent := ent |},
           Z.to_nat (Z.max (Z.of_nat i) j + 1))
      | None =>
          if contains LPAREN line then
            let '(clean, cls, ent, j) := extract_ce_across_lines ucd lines i line in
            if truthy cls || truthy ent then
              (append_afi st {| num := None; text := clean; cls := cls; ent := ent |},
               Z.to_nat (j + 1))
            else (st, S i)
          else (st, S i)
      end
  else if in_reco st then
    match RE_NUM_ITEM ucd line with
    | Some (g1, g2) => (set_reco (flush_reco st) (Some g1) [tidy g2], S i)
    | None =>
        (set_reco st (Some (default (u "1") (cur_rec_num st))) (cur_rec_parts st ++ [tidy line]),
         S i)
    end
  else (st, S i).

(** The [while i < len(lines)] loop: every iteration moves [i] forward, so
    [length lines] iterations are enough. *)
Fixpoint run (fuel : nat) (lines : list str) (i : nat) (st : state) : state :=
  match fuel with
  | 0 => st
  | S f =>
      match lines !! i with
      | Some line => let '(st', i') := step lines i line st in run f lines i' st'
      | None => st
      end
  end.

Definition initial (ws : gmap (nat * nat) (list N)) (start_row : nat) : state :=
  {| ws := ws; row := start_row; in_afi := false; in_reco := false; process_label := [];
     afis := []; recs := ∅; cur_rec_num := None; cur_rec_parts := []; last_afi_idx := None |}.

(** The state [process_file] ends in; the function returns its [row]. *)
Definition process_lines (lines : list str) (ws : gmap (nat * nat) (list N)) (start_row : nat)
  : state :=
  flush_block (flush_reco (run (length lines) lines 0 (initial ws start_row))).

Definition process_file (lines : list str) (ws : gmap (nat * nat) (list N)) (start_row : nat)
  : nat :=
  row (process_lines lines ws start_row).

End Parser.

(** ** A fragment of the Unicode database

    The database restricted to the characters the examples use beyond
    ASCII: the no-break space, which NFKC maps to a space; the acute accent
    U+0301, which NFKC composes with a lower-case vowel right before it, and
    with nothing after a zero-width character; the five composed vowels,
    which are alphanumeric.  The theorems hold for every [UnicodeData]; the
    fragment runs the examples, on strings where it agrees with the
    database, and is not the database elsewhere. *)
Definition compose_acute (c : N) : option N :=
  if (c =? 97)%N then Some 0xE1%N
  else if (c =? 101)%N then Some 0xE9%N
  else if (c =? 105)%N then Some 0xED%N
  else if (c =? 111)%N then Some 0xF3%N
  else if (c =? 117)%N then Some 0xFA%N
  else None.

Fixpoint nfkc_fragment (s : str) : str :=
  match s with
  | [] => []
  | c :: r =>
      let c' := if (c =? NBSP)%N then SP else c in
      match r with
      | d :: r' =>
          if (d =? 0x301)%N then
            match compose_acute c with
            | Some x => x :: nfkc_fragment r'
            | None => c' :: nfkc_fragment r
            end
          else c' :: nfkc_fragment r
      | [] => [c']
      end
  end.

Definition is_acute_vowel (c : N) : bool :=
  existsb (N.eqb c) [0xE1; 0xE9; 0xED; 0xF3; 0xFA]%N.

Definition ucd_fragment : UnicodeData :=
  {| nfkc := nfkc_fragment;
     isalnum_hi := is_acute_vowel;
     isdecimal_hi := fun _ => false;
     digit_hi := fun _ => 0%N;
     capitalize_hi := fun s =>
       match s with
       | [] => []
       | c :: r => (if is_acute_vowel c then c - 32 else ascii_upper c)%N :: List.map ascii_lower r
       end |}.

(** ** The vocabulary of the properties *)

(** No two adjacent spaces. *)
Fixpoint single_spaced (s : list N) : Prop :=
  match s with
  | c :: r => match r with d :: _ => ¬ (c = SP ∧ d = SP) | [] => True end ∧ single_spaced r
  | [] => True
  end.

Definition starts_blank (s : list N) : bool :=
  match s with c :: _ => is_blank c | [] => false end.

(** The only dash character allowed is the ASCII hyphen. *)
Definition dash_free (c : N) : Prop := contains c DASH_CHARS = true → c = HYPHEN.

(** What every result of the last five stages of [norm] looks like. *)
Record normalized (t : list N) : Prop := {
  nz_zero_width : Forall (λ c, contains c ZERO_WIDTH = false) t;
  nz_nbsp : Forall (λ c, c ≠ NBSP) t;
  nz_cr : Forall (λ c, c ≠ CR) t;
  nz_tab : Forall (λ c, c ≠ TAB) t;
  nz_dash : Forall dash_free t;
  nz_spaces : single_spaced t;
  nz_strip : strip t = t
}.

(** The accumulated span of the cross-line variant ([combined] in
    [extract_ce_across_lines]). *)
Definition accumulated (ucd : UnicodeData) (line_list : list (list N)) (idx : nat)
    (first_line : list N) : list N :=
  norm ucd (join [SP] (drop (index LPAREN first_line) first_line
                        :: (gather (drop (S idx) line_list) (S idx)).1)).

(** The text has no parenthesized annotation: no parenthesized group, or
    a last group that gives neither a classification nor an entity. *)
Definition no_paren_annotation (s : list N) : Prop :=
  match last_match (paren_at s) s with
  | Some (st, en) => annotation_fields s st en = ([], [])
  | None => True
  end.

(** The standalone word "major" or "other" stands at index [p] of [s], in
    any mix of cases: the five characters from [p] on spell it, the
    character before them, if there is one, is not a word character, and
    neither is the character after them. *)
Definition standalone_keyword (ucd : UnicodeData) (s : list N) (p : nat) : Prop :=
  (List.map ascii_lower (slice s p (p + 5)) = u "major"
   ∨ List.map ascii_lower (slice s p (p + 5)) = u "other")
  ∧ (∀ c, p ≠ 0 → s !! (p - 1) = Some c → is_word ucd c = false)
  ∧ (∀ c, s !! (p + 5) = Some c → is_word ucd c = false).

(** The last standalone keyword of the text stands at index [st]. *)
Definition last_standalone_keyword (ucd : UnicodeData) (s : list N) (st : nat) : Prop :=
  standalone_keyword ucd s st ∧ ∀ p, st < p → ¬ standalone_keyword ucd s p.

(** A line that one of the four header patterns matches. *)
Definition is_header (ucd : UnicodeData) (line : list N) : bool :=
  is_some (RE_PROCESS line) || is_some (RE_PROC_SIMPLE ucd line)
  || RE_AFI_HDR line || RE_RECO_HDR line.

Definition is_unnumbered (a : afi) : bool := negb (is_some (num a)).

(** How many items carry no explicit number. *)
Definition unnumbered (items : list afi) : nat := length (List.filter is_unnumbered items).

(** The explicit numbers, in the order of the items. *)
Definition explicit (items : list afi) : list N := omap num items.

(** The numbers [first], [first + 1], ... given to [k] unnumbered items. *)
Definition fallback_numbers (first : N) (k : nat) : list N :=
  (λ j, (first + N.of_nat j)%N) <$> seq 0 k.

Definition key_le (a b : afi) : Prop := (sort_key a <= sort_key b)%N.

(** The state inside an AFI section of a fresh process block. *)
Definition afi_section (ws : gmap (nat * nat) (list N)) (start_row : nat) : state :=
  {| ws := ws; row := start_row; in_afi := true; in_reco := false; process_label := [];
     afis := []; recs := ∅; cur_rec_num := None; cur_rec_parts := []; last_afi_idx := None |}.

(** The state inside a recommendation section of a fresh process block. *)
Definition reco_section (ws : gmap (nat * nat) (list N)) (start_row : nat) : state :=
  {| ws := ws; row := start_row; in_afi := false; in_reco := true; process_label := [];
     afis := []; recs := ∅; cur_rec_num := None; cur_rec_parts := []; last_afi_idx := None |}.

(** The lines of the examples of the design document. *)
Definition WIDGET_1 : list N := u "Improve widget handling (".
Definition WIDGET_2 : list N := u "Major - Logistics)".
Definition RECO_LINES : list (list N) := [u "1 - Do X"; u "continue doing X"; u "2 - Do Y"].
Definition INTAKE_DOC : list (list N) :=
  [u "Process 1.0 Intake"; u "Areas for Improvement:"; u "1 - Bad process (Major - Ops)";
   u "Recommendations:"; u "1 - Fix it"].

(** A block at the point of its flush: an item numbered 2, an item without
    a number, and recommendations for 1 and 2. *)
Definition SAMPLE_BLOCK : state :=
  {| ws := ∅; row := 2; in_afi := false; in_reco := true; process_label := u "Value";
     afis := [ {| num := Some 2%N; text := u "Slow intake (Major - Ops)"; cls := []; ent := [] |};
               {| num := None; text := u "No owner"; cls := u "Other"; ent := u "HR" |} ];
     recs := <[u "2" := u "Add staff"]> (<[u "1" := u "Name an owner"]> ∅);
     cur_rec_num := None; cur_rec_parts := []; last_afi_idx := Some 1 |}.

(** A recommendation number opened a second time: "1" already holds
    "Do X", and the open fragments are an empty one and "Do Z". *)
Definition REOPENED : state :=
  {| ws := ∅; row := 2; in_afi := false; in_reco := true; process_label := u "Value";
     afis := []; recs := <[u "1" := u "Do X"]> ∅;
     cur_rec_num := Some (u "1"); cur_rec_parts := [[]; u "Do Z"]; last_afi_idx := None |}.

(** ** The readers *)

(** The line boundaries of [str.splitlines]. *)
Definition is_linebreak (c : N) : bool :=
  existsb (N.eqb c) [10; 11; 12; 13; 0x1c; 0x1d; 0x1e; 0x85; 0x2028; 0x2029]%N.

(** [s.splitlines()]: [cur] is the line being read, [after_cr] holds right
    after a carriage return, whose line feed, if one follows, belongs to the
    same boundary.  A text that ends in a boundary has no empty last line. *)
Fixpoint splitlines_from (cur : str) (after_cr : bool) (s : str) : list str :=
  match s with
  | [] => if truthy cur then [cur] else []
  | c :: r =>
      if after_cr && (c =? LF)%N then splitlines_from cur false r
      else if is_linebreak c then cur :: splitlines_from [] (c =? CR)%N r
      else splitlines_from (cur ++ [c]) false r
  end.

Definition splitlines (s : str) : list str := splitlines_from [] false s.

(** [re.search]: a match at some position of the string. *)
Definition search (match_at : nat -> bool) (s : str) : bool :=
  existsb match_at (seq 0 (S (length s))).

Section Readers.

Variable ucd : UnicodeData.

(** [DOT_LEADER.search(x)], the pattern [.{2,}\.{3,}\s*\d+\s*$]: after the
    white space at the end, the last run of digits and the white space
    before it are taken off, three dots end what is left, and the two
    characters before them are not newlines. *)
Definition DOT_LEADER_search (s : str) : bool :=
  let t := rev (rstrip_by isspace s) in
  let '(digits, rest) := span (is_decimal ucd) t in
  truthy digits &&
  match lstrip_by isspace rest with
  | d1 :: d2 :: d3 :: b :: a :: _ =>
      (d1 =? DOT)%N && (d2 =? DOT)%N && (d3 =? DOT)%N && negb (b =? LF)%N && negb (a =? LF)%N
  | _ => false
  end.

(** [(?i)\btable of contents\b|\bcontents\b] at [pos]. *)
Definition toc_title_at (s : str) (pos : nat) : bool :=
  word_boundary ucd s pos
  && is_some (eat_ci (u "table of contents") (drop pos s))
  && word_boundary ucd s (pos + 17)
  || word_boundary ucd s pos
     && is_some (eat_ci (u "contents") (drop pos s))
     && word_boundary ucd s (pos + 8).

(** [TOC_TITLE.search(x)] *)
Definition TOC_TITLE_search (s : str) : bool := search (toc_title_at s) s.

(** [is_toc_page] *)
Definition is_toc_page (lines : list str) : bool :=
  if existsb TOC_TITLE_search lines then true
  else
    let dots := length (List.filter DOT_LEADER_search lines) in
    3 <=? dots.

(** [[norm(x) for x in text.splitlines() if norm(x)]], and the lines the
    loop over [cell.text.splitlines()] yields. *)
Definition nonempty_lines (text : str) : list str :=
  List.filter truthy (List.map (norm ucd) (splitlines text)).

(** The lines of one page of [yield_lines_pdf]; [text] is what
    [page.extract_text()] returns, [None] when it returns [None]. *)
Definition page_lines (text : option str) : list str :=
  let lines := nonempty_lines (default [] text) in
  if is_toc_page lines then [] else lines.

(** [yield_lines_pdf], on the texts of the pages of the document. *)
Definition yield_lines_pdf (pages : list (option str)) : list str :=
  flat_map page_lines pages.

(** [yield_lines_docx], on the texts of the paragraphs of the document and
    the texts of the cells of its tables, row by row. *)
Definition yield_lines_docx (paragraphs : list str) (tables : list (list (list str)))
  : list str :=
  List.filter truthy (List.map (norm ucd) paragraphs)
  ++ flat_map (fun tbl => flat_map (fun row => flat_map nonempty_lines row) tbl) tables.

End Readers.

(** ** The sheet helpers *)

(** [HEADERS], the row [open_or_create_workbook] writes to a new sheet. *)
Definition HEADERS : list (list N) :=
  [u "AFI"; u "Classification"; u "Recommendation"; u "Entity"; u "EE/FA"; u "Source File"].

(** The value of a cell: nothing, a text, or a value of another type, of
    which only the truth value matters here. *)
Inductive cell_value :=
  | CellNone
  | CellText (s : list N)
  | CellOther (truth : bool).

(** [next_row], on [ws.max_row]. *)
Definition next_row (max_row : nat) : nat := Nat.max (max_row + 1) 2.

Section Sheet.

(** [str.lower] of a string with a non-ASCII character. *)
Variable lower_hi : list N -> list N.

(** [s.lower()] *)
Definition py_lower (s : str) : str :=
  if forallb is_ascii s then List.map ascii_lower s else lower_hi s.

(** [(value or "").strip().lower()] for the value of a header cell; a true
    value that is not a text has no [strip] ([AttributeError]). *)
Definition header_key (v : cell_value) : option str :=
  match v with
  | CellNone => Some []
  | CellText s => Some (py_lower (strip s))
  | CellOther false => Some []
  | CellOther true => None
  end.

(** The loop of [detect_columns] over the cells of row 1 from column [col]
    on: [names[v] = col] for every non-empty key. *)
Fixpoint header_names (col : nat) (cells : list cell_value) (names : gmap (list N) nat)
  : option (gmap (list N) nat) :=
  match cells with
  | [] => Some names
  | c :: r =>
      match header_key c with
      | Some v => header_names (S col) r (if truthy v then <[v := col]> names else names)
      | None => None
      end
  end.

(** [detect_columns], on the cells of row 1 up to [ws.max_column]; [None]
    when it raises. *)
Definition detect_columns (header : list cell_value) : option columns :=
  names ← header_names 1 header ∅;
  Some {| col_afi := default 1 (names !! u "afi");
          col_class := default 2 (names !! u "classification");
          col_reco := default 3 (names !! u "recommendation");
          col_entity := default 4 (names !! u "entity");
          col_process := default 5 (names !! u "ee/fa");
          col_file := default 7 (names !! u "source file") |}.

End Sheet.

(** The 1-based column [c] is the last one of [header] whose key is [k]. *)
Definition last_column_of (lower_hi : list N -> list N) (header : list cell_value)
    (k : list N) (c : nat) : Prop :=
  1 ≤ c
  ∧ (∃ v, header !! (c - 1) = Some v ∧ header_key lower_hi v = Some k)
  ∧ ∀ c' v, c < c' → header !! (c' - 1) = Some v → header_key lower_hi v ≠ Some k.

(** No two adjacent characters of the class [p]. *)
Fixpoint no_adjacent (p : N -> bool) (s : list N) : Prop :=
  match s with
  | c :: r =>
      match r with d :: _ => ¬ (p c = true ∧ p d = true) | [] => True end ∧ no_adjacent p r
  | [] => True
  end.

(** Neither the first nor the last character is in the class [p]. *)
Definition trimmed (p : N -> bool) (s : list N) : Prop :=
  (∀ c, head s = Some c → p c = false) ∧ (∀ c, last s = Some c → p c = false).

(** The only white-space character of [s] is the space. *)
Definition plain_spaced (s : list N) : Prop := Forall (λ c, isspace c = true → c = SP) s.

(** The class of characters [tidy] trims besides white space. *)
Definition is_tidy_char (c : N) : bool := contains c TIDY_CHARS.

(** The text [t] followed by the annotation of classification [c] and
    entity [e]: ["t (c - e)"]. *)
Definition annotated (t c e : list N) : list N :=
  t ++ u " (" ++ c ++ u " - " ++ e ++ u ")".

(** What holds of the parser state all along a run: the two sections are
    never open together; the last-item pointer, when set, points into the
    item list; no accumulator entry is empty; without an open recommendation
    number there are no pending fragments; and an item without a number
    carries a classification or an entity. *)
Record consistent (st : state) : Prop := {
  cs_sections : in_afi st && in_reco st = false;
  cs_last : ∀ k, last_afi_idx st = Some k → k < length (afis st);
  cs_recs : ∀ k v, recs st !! k = Some v → v ≠ [];
  cs_parts : cur_rec_num st = None → cur_rec_parts st = [];
  cs_unnumbered : Forall (λ a, num a = None → cls a ≠ [] ∨ ent a ≠ []) (afis st)
}.

(** The sheet [w], with [r] the next row to write, comes from the sheet
    [w0], with [r0] the next row to write, by appending rows: [r] is not
    before [r0]; the cells of the rows below [r0] and from [r] on are those
    of [w0], and so are the cells outside the six columns; and in every row
    in between each of the six columns holds a value. *)
Definition sheet_extends (cols : columns) (w0 : gmap (nat * nat) (list N)) (r0 : nat)
    (w : gmap (nat * nat) (list N)) (r : nat) : Prop :=
  r0 ≤ r
  ∧ (∀ x c, x < r0 ∨ r ≤ x → w !! (x, c) = w0 !! (x, c))
  ∧ (∀ x c, c ∉ column_list cols → w !! (x, c) = w0 !! (x, c))
  ∧ (∀ x c, r0 ≤ x < r → c ∈ column_list cols → is_Some (w !! (x, c))).

(** A line as the readers hand it to the parser: not empty, and with the
    shape the normalizer gives. *)
Definition clean_line (l : list N) : Prop :=
  l ≠ []
  ∧ Forall (λ c, (c ∉ ZERO_WIDTH) ∧ c ≠ NBSP ∧ c ≠ CR ∧ c ≠ TAB ∧ (c ∈ DASH_CHARS → c = HYPHEN)) l
  ∧ single_spaced l
  ∧ trimmed isspace l.

(** No character of [l] is a line boundary of [str.splitlines]. *)
Definition no_linebreak (l : list N) : Prop := Forall (λ c, is_linebreak c = false) l.

(** * Properties *)

#[local] Arguments contains : simpl never.

(** ** Stripping *)

Lemma lstrip_by_suffix p s : ∃ a, s = a ++ lstrip_by p s.
Proof.
  induction s as [|c r [a IH]]; simpl.
  - by exists [].
  - destruct (p c); [exists (c :: a); simpl; congruence | by exists []].
Qed.

Lemma rstrip_by_prefix p s : ∃ b, s = rstrip_by p s ++ b.
Proof.
  induction s as [|c r [b IH]]; simpl.
  - by exists [].
  - destruct (rstrip_by p r) as [|d r'] eqn:E.
    + destruct (p c); [exists (c :: r) | exists r]; simpl; congruence.
    + exists b. simpl in *. congruence.
Qed.

Lemma lstrip_by_id p c r : p c = false → lstrip_by p (c :: r) = c :: r.
Proof. intros H. simpl. by rewrite H. Qed.

Lemma rstrip_by_cons p c r : p c = false → rstrip_by p (c :: r) = c :: rstrip_by p r.
Proof. intros H. simpl. rewrite H. by destruct (rstrip_by p r). Qed.

Lemma lstrip_by_head p s c r : lstrip_by p s = c :: r → p c = false.
Proof.
  induction s as [|d s IH]; simpl; [done|].
  destruct (p d) eqn:E; [done|]. intros [= <- <-]. done.
Qed.

Lemma rstrip_by_idem p s : rstrip_by p (rstrip_by p s) = rstrip_by p s.
Proof.
  induction s as [|c r IH]; simpl; [done|].
  destruct (rstrip_by p r) as [|d r'] eqn:E.
  - destruct (p c) eqn:Ec; simpl; [done | by rewrite Ec].
  - change (rstrip_by p (c :: d :: r')) with
      (match rstrip_by p (d :: r') with [] => if p c then [] else [c] | x => c :: x end).
    by rewrite IH.
Qed.

Lemma strip_by_idem p s : strip_by p (strip_by p s) = strip_by p s.
Proof.
  unfold strip_by. destruct (lstrip_by p s) as [|c r] eqn:E; [done|].
  pose proof (lstrip_by_head _ _ _ _ E) as Hc.
  rewrite (rstrip_by_cons _ _ _ Hc), (lstrip_by_id _ _ _ Hc).
  rewrite <- (rstrip_by_cons _ _ _ Hc). apply rstrip_by_idem.
Qed.

Lemma strip_by_infix p s : ∃ a b, s = a ++ strip_by p s ++ b.
Proof.
  unfold strip_by. destruct (lstrip_by_suffix p s) as [a Ha].
  destruct (rstrip_by_prefix p (lstrip_by p s)) as [b Hb].
  exists a, b. by rewrite <- Hb.
Qed.

(** ** The stages of [norm] *)

Lemma single_spaced_app_r a b : single_spaced (a ++ b) → single_spaced b.
Proof.
  induction a as [|c a IH]; simpl; [done|]. intros [_ H]. by apply IH.
Qed.

Lemma single_spaced_app_l a b : single_spaced (a ++ b) → single_spaced a.
Proof.
  induction a as [|c a IH]; simpl; [done|]. intros [H1 H2]. split; [|by apply IH].
  destruct a; simpl in *; done.
Qed.

Lemma sub_blank_runs_head s :
  starts_blank (sub_blank_runs s) = starts_blank s.
Proof.
  induction s as [|c r IH]; simpl; [done|].
  destruct (is_blank c) eqn:Ec; simpl; [|done].
  destruct r as [|d r']; [done|].
  destruct (is_blank d) eqn:Ed; [|done].
  rewrite IH. simpl. done.
Qed.

Lemma is_blank_SP c : c = SP → is_blank c = true.
Proof. by intros ->. Qed.

Lemma sub_blank_runs_single_spaced s : single_spaced (sub_blank_runs s).
Proof.
  induction s as [|c r IH]; simpl; [done|].
  destruct (is_blank c) eqn:Ec.
  - destruct r as [|d r']; [done|]. destruct (is_blank d) eqn:Ed; [done|].
    split; [|done]. pose proof (sub_blank_runs_head (d :: r')) as Hh.
    destruct (sub_blank_runs (d :: r')) as [|x xs]; [done|].
    simpl in Hh. rewrite Ed in Hh. intros [_ ->]. done.
  - split; [|done]. destruct (sub_blank_runs r); [done|]. intros [-> _]. done.
Qed.

Lemma sub_blank_runs_id s :
  Forall (λ c, c ≠ TAB) s → single_spaced s → sub_blank_runs s = s.
Proof.
  induction s as [|c r IH]; simpl; [done|].
  intros Hall [H1 H2]. apply Forall_cons in Hall as [Hc Hall].
  rewrite (IH Hall H2).
  destruct (is_blank c) eqn:Ec; [|done].
  assert (c = SP) as ->.
  { unfold is_blank in Ec. apply orb_true_iff in Ec as [E|E]; apply N.eqb_eq in E; done. }
  destruct r as [|d r']; [done|].
  destruct (is_blank d) eqn:Ed; [|done].
  apply Forall_cons in Hall as [Hd _].
  exfalso. apply H1. split; [done|].
  unfold is_blank in Ed. apply orb_true_iff in Ed as [E|E]; apply N.eqb_eq in E; done.
Qed.

Lemma sub_blank_runs_Forall (P : N → Prop) s :
  P SP → Forall P s → Forall P (sub_blank_runs s).
Proof.
  intros HP. induction s as [|c r IH]; simpl; [done|].
  intros Hall. apply Forall_cons in Hall as [Hc Hall].
  destruct (is_blank c).
  - destruct r as [|d r']; [by repeat constructor|].
    destruct (is_blank d); [by apply IH | constructor; [done | by apply IH]].
  - constructor; [done | by apply IH].
Qed.

Lemma sub_blank_runs_no_tab s : Forall (λ c, c ≠ TAB) (sub_blank_runs s).
Proof.
  induction s as [|c r IH]; simpl; [done|].
  destruct (is_blank c) eqn:Ec.
  - destruct r as [|d r']; [by repeat constructor|].
    destruct (is_blank d); [done | by constructor].
  - constructor; [|done]. intros ->. done.
Qed.

Lemma replace1_Forall (Q : N → Prop) c new s :
  Forall Q new → Forall Q s → Forall Q (replace1 c new s).
Proof.
  intros Hn. induction 1 as [|x r Hx Hr IH]; simpl; [done|].
  apply Forall_app. split; [|done]. destruct (x =? c)%N; [done | by constructor].
Qed.

Lemma replace1_absent c new s :
  Forall (λ x, x ≠ c) new → Forall (λ x, x ≠ c) (replace1 c new s).
Proof.
  intros Hn. induction s as [|x r IH]; simpl; [done|].
  apply Forall_app. split; [|done].
  destruct (N.eqb_spec x c); [done | by constructor].
Qed.

Lemma replace1_id c new s : Forall (λ x, x ≠ c) s → replace1 c new s = s.
Proof.
  induction 1 as [|x r Hx Hr IH]; simpl; [done|].
  destruct (N.eqb_spec x c); [done|]. simpl. by rewrite IH.
Qed.

Lemma contains_cons c z zs : contains c (z :: zs) = (c =? z)%N || contains c zs.
Proof. done. Qed.

Lemma remove_all_Forall zs : ∀ (Q : N → Prop) s,
  Forall Q s → Forall (λ c, contains c zs = false ∧ Q c) (remove_all zs s).
Proof.
  induction zs as [|z zs IH]; intros Q s Hs; simpl.
  - eapply Forall_impl; [exact Hs|]. by intros c Hc.
  - specialize (IH (λ c, c ≠ z ∧ Q c) (replace1 z [] s)).
    eapply Forall_impl; [apply IH|].
    + apply Forall_and. split; [by apply replace1_absent | by apply replace1_Forall].
    + intros c (Hc & Hz & HQ). split; [|done].
      rewrite contains_cons, Hc. by destruct (N.eqb_spec c z).
Qed.

Lemma remove_all_id zs : ∀ s,
  Forall (λ c, contains c zs = false) s → remove_all zs s = s.
Proof.
  induction zs as [|z zs IH]; intros s Hs; simpl; [done|].
  rewrite replace1_id.
  - apply IH. eapply Forall_impl; [exact Hs|]. intros c. cbv beta. rewrite contains_cons.
    by intros [_ ?]%orb_false_iff.
  - eapply Forall_impl; [exact Hs|]. intros c. cbv beta. rewrite contains_cons.
    intros [Hc _]%orb_false_iff ->. by rewrite N.eqb_refl in Hc.
Qed.

Lemma DASH_RE_sub_Forall (Q : N → Prop) s :
  Q HYPHEN → Forall Q s → Forall Q (DASH_RE_sub s).
Proof.
  intros HQ. induction 1 as [|x r Hx Hr IH]; simpl; [done|].
  constructor; [|done]. by destruct (contains x DASH_CHARS).
Qed.

Lemma DASH_RE_sub_dash_free s : Forall dash_free (DASH_RE_sub s).
Proof.
  induction s as [|x r IH]; simpl; [done|]. constructor; [|done].
  destruct (contains x DASH_CHARS) eqn:E; [done|]. intros H. congruence.
Qed.

Lemma DASH_RE_sub_id s : Forall dash_free s → DASH_RE_sub s = s.
Proof.
  induction 1 as [|x r Hx Hr IH]; [done|].
  unfold DASH_RE_sub in *. rewrite map_cons, IH.
  destruct (contains x DASH_CHARS) eqn:E; [|done]. by rewrite (Hx E).
Qed.

Lemma dash_sub_SP c : (if contains c DASH_CHARS then HYPHEN else c) = SP → c = SP.
Proof. destruct (contains c DASH_CHARS); done. Qed.

Lemma DASH_RE_sub_single_spaced s : single_spaced s → single_spaced (DASH_RE_sub s).
Proof.
  induction s as [|c r IH]; simpl; [done|]. intros [H1 H2]. split; [|by apply IH].
  destruct r as [|d r']; simpl; [done|].
  intros [Hc Hd]. apply H1. split; by apply dash_sub_SP.
Qed.

Lemma Forall_infix {A} (Q : A → Prop) a t b : Forall Q (a ++ t ++ b) → Forall Q t.
Proof. intros [_ [H _]%Forall_app]%Forall_app. done. Qed.

Lemma norm_normalized ucd s : normalized (norm ucd s).
Proof.
  unfold norm. fold (remove_all ZERO_WIDTH (normalize_NFKC ucd s)).
  set (x1 := remove_all ZERO_WIDTH (normalize_NFKC ucd s)).
  set (x2 := replace1 CR [LF] (replace1 NBSP [SP] x1)).
  set (x4 := DASH_RE_sub (sub_blank_runs x2)).
  assert (Forall (λ c, contains c ZERO_WIDTH = false) x2) as Hz.
  { apply replace1_Forall; [by repeat constructor|].
    apply replace1_Forall; [by repeat constructor|].
    eapply Forall_impl; [apply (remove_all_Forall ZERO_WIDTH (λ _, True)) |].
    - by apply Forall_forall.
    - by intros c [? _]. }
  assert (Forall (λ c, c ≠ NBSP) x2) as Hn.
  { apply replace1_Forall; [by repeat constructor|].
    apply replace1_absent. by repeat constructor. }
  assert (Forall (λ c, c ≠ CR) x2) as Hr.
  { apply replace1_absent. by repeat constructor. }
  destruct (strip_by_infix isspace x4) as (a & b & Hab).
  fold (strip x4) in Hab.
  split.
  - apply (Forall_infix _ a _ b). rewrite <- Hab.
    apply DASH_RE_sub_Forall; [done|]. by apply sub_blank_runs_Forall.
  - apply (Forall_infix _ a _ b). rewrite <- Hab.
    apply DASH_RE_sub_Forall; [done|]. by apply sub_blank_runs_Forall.
  - apply (Forall_infix _ a _ b). rewrite <- Hab.
    apply DASH_RE_sub_Forall; [done|]. by apply sub_blank_runs_Forall.
  - apply (Forall_infix _ a _ b). rewrite <- Hab.
    apply DASH_RE_sub_Forall; [done|]. apply sub_blank_runs_no_tab.
  - apply (Forall_infix _ a _ b). rewrite <- Hab. apply DASH_RE_sub_dash_free.
  - assert (single_spaced x4) as Hs.
    { apply DASH_RE_sub_single_spaced, sub_blank_runs_single_spaced. }
    rewrite Hab in Hs. by apply single_spaced_app_r, single_spaced_app_l in Hs.
  - apply strip_by_idem.
Qed.

Lemma norm_fixes_normalized ucd t :
  normalized t → normalize_NFKC ucd t = t → norm ucd t = t.
Proof.
  intros [Hz Hn Hr Ht Hd Hs Hst] Hk. unfold norm. rewrite Hk.
  fold (remove_all ZERO_WIDTH t). rewrite (remove_all_id _ _ Hz).
  rewrite (replace1_id NBSP _ _ Hn), (replace1_id CR _ _ Hr).
  rewrite (sub_blank_runs_id _ Ht Hs), (DASH_RE_sub_id _ Hd). exact Hst.
Qed.

Lemma forallb_is_ascii (s : list N) : forallb is_ascii s = true ↔ Forall (λ c, is_ascii c = true) s.
Proof. rewrite forallb_forall, Forall_forall. by setoid_rewrite list_elem_of_In. Qed.

(** The normalizer keeps an ASCII line ASCII, so it is idempotent on the
    ASCII lines whatever the database says elsewhere. *)
Lemma norm_ascii ucd (s : list N) :
  forallb is_ascii s = true → forallb is_ascii (norm ucd s) = true.
Proof.
  intros H. unfold norm, normalize_NFKC. rewrite H. apply forallb_is_ascii in H.
  apply forallb_is_ascii.
  destruct (strip_by_infix isspace
              (DASH_RE_sub (sub_blank_runs (replace1 CR [LF] (replace1 NBSP [SP]
                 (remove_all ZERO_WIDTH s)))))) as (a & b & Hab).
  apply (Forall_infix _ a _ b). unfold strip. rewrite <- Hab.
  apply DASH_RE_sub_Forall; [done|]. apply sub_blank_runs_Forall; [done|].
  apply replace1_Forall; [by repeat constructor|].
  apply replace1_Forall; [by repeat constructor|].
  eapply Forall_impl; [apply (remove_all_Forall ZERO_WIDTH _ s H)|]. by intros c [_ ?].
Qed.

Lemma norm_idempotent_ascii ucd (s : list N) :
  forallb is_ascii s = true → norm ucd (norm ucd s) = norm ucd s.
Proof.
  intros H. apply norm_fixes_normalized; [apply norm_normalized|].
  unfold normalize_NFKC. by rewrite (norm_ascii ucd s H).
Qed.

(** C8, as amended.  A normalized line that Unicode NFKC normalization
    leaves as it is (every ASCII line, for one) is a fixed point of the
    normalizer: normalizing it again returns it unchanged. *)
Theorem norm_idempotent_on_nfkc_stable ucd (s : list N) :
  normalize_NFKC ucd (norm ucd s) = norm ucd s →
  norm ucd (norm ucd s) = norm ucd s.
Proof. intros H. apply norm_fixes_normalized; [apply norm_normalized | exact H]. Qed.

Lemma norm_idempotent_on_nfkc_stable_witness :
  let s := [0x200b; 32; 65; 9; 9; 0x2014; 66; 0xA0; 13; 67; 32]%N in
  normalize_NFKC ucd_fragment (norm ucd_fragment s) = norm ucd_fragment s
  ∧ norm ucd_fragment (norm ucd_fragment s) = norm ucd_fragment s.
Proof.
  intros s. split; [reflexivity|].
  apply (norm_idempotent_on_nfkc_stable ucd_fragment s). reflexivity.
Defined.

(** C8 as stated fails.  The line [a, U+200B, U+0301] is in NFKC form
    (the zero-width space keeps the accent from composing); the normalizer
    removes the zero-width space and returns [a, U+0301], and normalizing
    that line again composes it to U+00E1. *)
Lemma norm_not_idempotent :
  let line := norm ucd_fragment [97; 0x200b; 0x301]%N in
  line = [97; 0x301]%N
  ∧ norm ucd_fragment line = [0xE1]%N
  ∧ norm ucd_fragment line ≠ line.
Proof. vm_compute. repeat split; congruence. Qed.

(** ** Matches *)

Lemma finditer_elem m fuel : ∀ pos a b,
  (a, b) ∈ finditer m fuel pos → m a = Some b.
Proof.
  induction fuel as [|f IH]; intros pos a b; simpl.
  - by intros ?%elem_of_nil.
  - destruct (m pos) as [e|] eqn:E.
    + intros [[= -> ->]|H]%elem_of_cons; [done | by eapply IH].
    + apply IH.
Qed.

Lemma last_match_Some m s a b : last_match m s = Some (a, b) → m a = Some b.
Proof.
  unfold last_match. intros H. eapply finditer_elem, last_Some_elem_of, H.
Qed.

Lemma finditer_none m fuel : ∀ pos, (∀ p, m p = None) → finditer m fuel pos = [].
Proof.
  induction fuel as [|f IH]; intros pos H; simpl; [done|]. rewrite H. by apply IH.
Qed.

Lemma find_from_contains c s start : ∀ i k,
  find_from c s start i = Some k → contains c s = true.
Proof.
  unfold contains. induction s as [|x r IH]; intros i k; simpl; [done|].
  destruct ((start <=? i) && (x =? c)%N) eqn:E.
  - apply andb_true_iff in E as [_ E]. rewrite N.eqb_sym, E. done.
  - intros H. rewrite (IH _ _ H). apply orb_true_r.
Qed.

Lemma contains_app c a b : contains c (a ++ b) = contains c a || contains c b.
Proof. unfold contains. apply existsb_app. Qed.

Lemma contains_drop c n s : contains c (drop n s) = true → contains c s = true.
Proof.
  intros H. rewrite <- (take_drop n s), contains_app, H. apply orb_true_r.
Qed.

Lemma paren_at_contains s pos e : paren_at s pos = Some e → contains RPAREN s = true.
Proof.
  unfold paren_at. destruct (drop pos s) as [|c r] eqn:E; [done|].
  destruct (c =? LPAREN)%N; [|done].
  destruct (find RPAREN r 0) as [k|] eqn:F; [|done]. intros _.
  apply (contains_drop _ pos). rewrite E.
  change (c :: r) with ([c] ++ r). rewrite contains_app.
  unfold find in F. rewrite (find_from_contains _ _ _ _ _ F). apply orb_true_r.
Qed.

Lemma last_match_paren_none s : contains RPAREN s = false → last_match (paren_at s) s = None.
Proof.
  intros H. unfold last_match. rewrite finditer_none; [done|].
  intros p. destruct (paren_at s p) eqn:E; [|done].
  apply paren_at_contains in E. congruence.
Qed.

Lemma truthy_nil_iff (s : list N) : truthy s = false ↔ s = [].
Proof. destruct s; simpl; split; congruence. Qed.

Section Extraction.

Variable ucd : UnicodeData.

Lemma extract_ce_keyword_unparsed s t c e :
  extract_ce_keyword ucd s = (t, c, e) → e = [] → t = tidy s ∧ c = [].
Proof.
  unfold extract_ce_keyword.
  destruct (last_match (kw_at ucd s) s) as [[st en]|]; [|by intros [= <- <- <-]].
  destruct (find HYPHEN s st) as [dash|]; [|by intros [= <- <- <-]].
  destruct (truthy (tidy (drop (S dash) s))) eqn:E; [|by intros [= <- <- <-]].
  intros [= <- <- <-] He. rewrite He in E. done.
Qed.

Lemma extract_ce_anywhere_unparsed text t c e :
  extract_ce_anywhere ucd text = (t, c, e) → c = [] → e = [] → t = tidy text.
Proof.
  unfold extract_ce_anywhere.
  destruct (last_match (paren_at text) text) as [[st en]|].
  - destruct (annotation_fields text st en) as [c' e'].
    destruct (truthy c' || truthy e') eqn:E.
    + intros [= <- <- <-] -> ->. done.
    + intros H _ He. by apply (extract_ce_keyword_unparsed _ _ _ _ H).
  - intros H _ He. by apply (extract_ce_keyword_unparsed _ _ _ _ H).
Qed.

Lemma extract_ce_anywhere_no_paren text :
  no_paren_annotation text → extract_ce_anywhere ucd text = extract_ce_keyword ucd text.
Proof.
  unfold no_paren_annotation, extract_ce_anywhere.
  destruct (last_match (paren_at text) text) as [[st en]|]; [|done]. by intros ->.
Qed.

Lemma extract_ce_anywhere_plain text :
  no_paren_annotation text →
  last_match (kw_at ucd text) text = None →
  extract_ce_anywhere ucd text = (tidy text, [], []).
Proof.
  intros Hp Hk. rewrite extract_ce_anywhere_no_paren by done.
  unfold extract_ce_keyword. by rewrite Hk.
Qed.

Lemma extract_ce_across_lines_unclosed line_list idx first_line :
  contains LPAREN first_line = true →
  contains RPAREN first_line = false →
  contains RPAREN (accumulated ucd line_list idx first_line) = false →
  extract_ce_across_lines ucd line_list idx first_line =
    (tidy first_line, [], [],
     Z.min (Z.of_nat (gather (drop (S idx) line_list) (S idx)).2)
           (Z.of_nat (length line_list) - 1)).
Proof.
  intros H1 H2 H3. unfold extract_ce_across_lines, accumulated in *.
  rewrite H1, H2. simpl.
  destruct (gather (drop (S idx) line_list) (S idx)) as [more j]. simpl in *.
  by rewrite (last_match_paren_none _ H3).
Qed.

End Extraction.

(** ** The keyword pattern *)

Lemma ci_char_plain l c :
  l ≠ 105%N → l ≠ 115%N → l ≠ 107%N → ci_char l c = true → ascii_lower c = l.
Proof.
  intros Hi Hs Hk. unfold ci_char.
  destruct (N.eqb_spec l 105); [done|]. destruct (N.eqb_spec l 115); [done|].
  destruct (N.eqb_spec l 107); [done|]. simpl. rewrite !orb_false_r.
  by intros ?%N.eqb_eq.
Qed.

Lemma ascii_lower_inv c l :
  is_ascii_lower l = true → ascii_lower c = l → c = l ∨ c = (l - 32)%N.
Proof.
  unfold is_ascii_lower, ascii_lower, is_ascii_upper.
  intros [H1 H2]%andb_true_iff. apply N.leb_le in H1, H2.
  destruct ((65 <=? c)%N && (c <=? 90)%N) eqn:E; intros <-; [right; lia | by left].
Qed.

Lemma ci_char_cases l c :
  l ≠ 105%N → l ≠ 115%N → l ≠ 107%N → is_ascii_lower l = true →
  ci_char l c = true → c = l ∨ c = (l - 32)%N.
Proof. intros ? ? ? Hl H. apply ascii_lower_inv; [done|]. by apply ci_char_plain. Qed.

Ltac ci_split H :=
  apply ci_char_cases in H; [destruct H as [H|H]; subst | done ..].

Lemma eat_ci_keyword (w x r : list N) :
  w = u "major" ∨ w = u "other" →
  eat_ci w x = Some r →
  (List.map ascii_lower (take 5 x) = w)
  ∧ forallb is_ascii (take 5 x) = true
  ∧ (ascii_capitalize (take 5 x) = u "Major" ∨ ascii_capitalize (take 5 x) = u "Other").
Proof.
  intros Hw H.
  destruct x as [|c1 [|c2 [|c3 [|c4 [|c5 x']]]]];
    try (destruct Hw as [-> | ->]; vm_compute in H;
         repeat match type of H with (if ?b then _ else _) = _ => destruct b end; done).
  destruct Hw as [-> | ->].
  - change (u "major") with [109; 97; 106; 111; 114]%N in *. cbn [eat_ci] in H.
    destruct (ci_char 109 c1) eqn:E1; [|done]. destruct (ci_char 97 c2) eqn:E2; [|done].
    destruct (ci_char 106 c3) eqn:E3; [|done]. destruct (ci_char 111 c4) eqn:E4; [|done].
    destruct (ci_char 114 c5) eqn:E5; [|done].
    ci_split E1; ci_split E2; ci_split E3; ci_split E4; ci_split E5;
      vm_compute; repeat split; by left.
  - change (u "other") with [111; 116; 104; 101; 114]%N in *. cbn [eat_ci] in H.
    destruct (ci_char 111 c1) eqn:E1; [|done]. destruct (ci_char 116 c2) eqn:E2; [|done].
    destruct (ci_char 104 c3) eqn:E3; [|done]. destruct (ci_char 101 c4) eqn:E4; [|done].
    destruct (ci_char 114 c5) eqn:E5; [|done].
    ci_split E1; ci_split E2; ci_split E3; ci_split E4; ci_split E5;
      vm_compute; repeat split; by right.
Qed.

Lemma kw_at_spec ucd s st en :
  kw_at ucd s st = Some en →
  en = st + 5
  ∧ (List.map ascii_lower (slice s st en) = u "major"
     ∨ List.map ascii_lower (slice s st en) = u "other")
  ∧ capitalize ucd (slice s st en) = ascii_capitalize (slice s st en)
  ∧ (ascii_capitalize (slice s st en) = u "Major" ∨ ascii_capitalize (slice s st en) = u "Other").
Proof.
  unfold kw_at.
  destruct (word_boundary ucd s st), (word_boundary ucd s (st + 5)),
    (is_some (eat_ci (u "major") (drop st s)) || is_some (eat_ci (u "other") (drop st s)))
    eqn:E; simpl; try done.
  intros [= <-]. split; [done|].
  unfold slice. replace (st + 5 - st) with 5 by lia.
  apply orb_true_iff in E as [E|E].
  - destruct (eat_ci (u "major") (drop st s)) as [r|] eqn:Er; [|done].
    destruct (eat_ci_keyword _ _ _ (or_introl eq_refl) Er) as (H1 & H2 & H3).
    unfold capitalize. rewrite H2. auto.
  - destruct (eat_ci (u "other") (drop st s)) as [r|] eqn:Er; [|done].
    destruct (eat_ci_keyword _ _ _ (or_intror eq_refl) Er) as (H1 & H2 & H3).
    unfold capitalize. rewrite H2. auto.
Qed.

Lemma find_from_Some c s start : ∀ i k,
  find_from c s start i = Some k →
  i ≤ k ∧ start ≤ k ∧ s !! (k - i) = Some c
  ∧ ∀ j, start ≤ j → i ≤ j < k → s !! (j - i) ≠ Some c.
Proof.
  induction s as [|x r IH]; intros i k; simpl; [done|].
  destruct ((start <=? i) && (x =? c)%N) eqn:E.
  - intros [= <-]. apply andb_true_iff in E as [E1%Nat.leb_le E2%N.eqb_eq]. subst x.
    rewrite Nat.sub_diag. repeat split; try done; lia.
  - intros H. destruct (IH _ _ H) as (H1 & H2 & H3 & H4).
    split; [lia|]. split; [done|]. split.
    + replace (k - i) with (S (k - S i)) by lia. done.
    + intros j Hs Hj. destruct (decide (j = i)) as [->|Hne].
      * rewrite Nat.sub_diag. simpl. intros [= ->].
        apply andb_false_iff in E as [E|E]; [apply Nat.leb_gt in E; lia|].
        by rewrite N.eqb_refl in E.
      * replace (j - i) with (S (j - S i)) by lia. simpl. apply H4; lia.
Qed.

Lemma find_from_None c s start : ∀ i,
  find_from c s start i = None → ∀ j, start ≤ j → i ≤ j → s !! (j - i) ≠ Some c.
Proof.
  induction s as [|x r IH]; intros i; simpl; [done|].
  destruct ((start <=? i) && (x =? c)%N) eqn:E; [done|].
  intros H j Hs Hj. destruct (decide (j = i)) as [->|Hne].
  - rewrite Nat.sub_diag. simpl. intros [= ->].
    apply andb_false_iff in E as [E|E]; [apply Nat.leb_gt in E; lia|].
    by rewrite N.eqb_refl in E.
  - replace (j - i) with (S (j - S i)) by lia. simpl. apply (IH _ H); lia.
Qed.

(** [s.find(c, start)] is the first index from [start] on that holds [c]. *)
Lemma find_Some c s start k :
  find c s start = Some k →
  start ≤ k ∧ s !! k = Some c ∧ ∀ j, start ≤ j < k → s !! j ≠ Some c.
Proof.
  intros H. destruct (find_from_Some _ _ _ _ _ H) as (_ & H2 & H3 & H4).
  rewrite Nat.sub_0_r in H3. split; [done|]. split; [done|].
  intros j Hj. specialize (H4 j). rewrite Nat.sub_0_r in H4. apply H4; lia.
Qed.

Lemma find_None c s start j : find c s start = None → start ≤ j → s !! j ≠ Some c.
Proof.
  intros H Hj. pose proof (find_from_None _ _ _ _ H j Hj) as H'.
  rewrite Nat.sub_0_r in H'. apply H'. lia.
Qed.

Lemma find_intro c (s : list N) start k :
  start ≤ k → s !! k = Some c → (∀ j, start ≤ j < k → s !! j ≠ Some c) →
  find c s start = Some k.
Proof.
  intros Hs Hk Hlt. destruct (find c s start) as [k'|] eqn:E.
  - destruct (find_Some _ _ _ _ E) as (Hs' & Hk' & Hlt').
    f_equal. destruct (Nat.lt_trichotomy k k') as [H|[H|H]]; [|done|].
    + exfalso. apply (Hlt' k); [lia | done].
    + exfalso. apply (Hlt k'); [lia | done].
  - exfalso. by apply (find_None _ _ _ k E).
Qed.

Lemma find_none_intro c (s : list N) start :
  (∀ j, start ≤ j → s !! j ≠ Some c) → find c s start = None.
Proof.
  intros H. destruct (find c s start) as [k|] eqn:E; [|done].
  destruct (find_Some _ _ _ _ E) as (Hs & Hk & _). exfalso. by apply (H k).
Qed.

(** The search of [finditer] from [pos] with [fuel] covers the positions
    below [pos + fuel], when a match never ends before it starts. *)
Lemma finditer_nil m fuel : ∀ pos,
  (∀ p, pos ≤ p → m p = None) → finditer m fuel pos = [].
Proof.
  induction fuel as [|f IH]; intros pos H; simpl; [done|].
  rewrite (H pos) by lia. apply IH. intros p Hp. apply H. lia.
Qed.

(** When matches do not overlap, the scan of [finditer] steps over none of
    them, and its last match is the match at the greatest position. *)
Lemma finditer_last_intro m :
  (∀ p e, m p = Some e → p < e) →
  (∀ p e q, m p = Some e → p < q < e → m q = None) →
  ∀ fuel pos st en,
  pos ≤ st → st - pos < fuel → m st = Some en → (∀ p, st < p → m p = None) →
  last (finditer m fuel pos) = Some (st, en).
Proof.
  intros Hm Hover. induction fuel as [|f IH]; intros pos st en Hpos Hf Hst Hlast; [lia|].
  simpl. destruct (decide (pos = st)) as [->|Hne].
  - rewrite Hst. pose proof (Hm _ _ Hst) as He.
    replace (en =? st) with false by (symmetry; apply Nat.eqb_neq; lia).
    rewrite finditer_nil; [done|]. intros p Hp. apply Hlast. lia.
  - destruct (m pos) as [e|] eqn:E.
    + pose proof (Hm _ _ E) as He.
      replace (e =? pos) with false by (symmetry; apply Nat.eqb_neq; lia).
      assert (e ≤ st) as Hle.
      { destruct (decide (e ≤ st)); [done|]. rewrite (Hover pos e st E) in Hst; [done | lia]. }
      rewrite last_cons, (IH e st en); [done | lia | lia | done | done].
    + apply IH; [lia | lia | done | done].
Qed.

(** ** The keyword pattern, position by position *)

Lemma lower_letter_is_word ucd c :
  is_ascii_lower (ascii_lower c) = true → is_word ucd c = true.
Proof.
  unfold is_word, is_ascii, ascii_lower, is_ascii_lower, is_ascii_upper, is_ascii_digit.
  destruct ((65 <=? c)%N && (c <=? 90)%N) eqn:E.
  - apply andb_true_iff in E as [E1%N.leb_le E2%N.leb_le]. intros _.
    replace (c <? 128)%N with true by (symmetry; apply N.ltb_lt; lia).
    by rewrite orb_true_r.
  - intros [E1%N.leb_le E2%N.leb_le]%andb_true_iff.
    replace (c <? 128)%N with true by (symmetry; apply N.ltb_lt; lia).
    replace (97 <=? c)%N with true by (symmetry; apply N.leb_le; lia).
    replace (c <=? 122)%N with true by (symmetry; apply N.leb_le; lia).
    simpl. by rewrite orb_true_r.
Qed.

Lemma is_keyword_word (w : list N) :
  w = u "major" ∨ w = u "other" → Forall (λ l, is_ascii_lower l = true) w ∧ length w = 5.
Proof. intros [-> | ->]; split; try done; by repeat constructor. Qed.

Lemma ci_char_lower l c : ascii_lower c = l → ci_char l c = true.
Proof. intros <-. unfold ci_char. by rewrite N.eqb_refl. Qed.

Lemma eat_ci_lower (w : list N) : ∀ x,
  List.map ascii_lower (take (length w) x) = w → is_some (eat_ci w x) = true.
Proof.
  induction w as [|l w IH]; intros x; [by destruct x|].
  destruct x as [|c x]; [done|]. simpl. intros [= Hc Hw].
  rewrite (ci_char_lower _ _ Hc). by apply IH.
Qed.

(** The letters of a keyword at [p] are word characters. *)
Lemma keyword_letters_word ucd (s : list N) p k c :
  (List.map ascii_lower (slice s p (p + 5)) = u "major"
   ∨ List.map ascii_lower (slice s p (p + 5)) = u "other") →
  k < 5 → s !! (p + k) = Some c → is_word ucd c = true.
Proof.
  intros Hw Hk Hc. apply lower_letter_is_word.
  destruct (is_keyword_word _ Hw) as [Hall Hlen].
  rewrite Forall_forall in Hall. apply Hall.
  apply list_elem_of_lookup. exists k.
  rewrite list_lookup_fmap. unfold slice. replace (p + 5 - p) with 5 by lia.
  rewrite lookup_take_lt by lia. rewrite lookup_drop, Hc. done.
Qed.

Lemma keyword_length (s : list N) p :
  (List.map ascii_lower (slice s p (p + 5)) = u "major"
   ∨ List.map ascii_lower (slice s p (p + 5)) = u "other") →
  p + 5 ≤ length s.
Proof.
  intros Hw. destruct (is_keyword_word _ Hw) as [_ Hlen].
  rewrite length_map in Hlen. unfold slice in Hlen.
  rewrite length_take, length_drop in Hlen. lia.
Qed.

Lemma word_at_letter ucd (s : list N) p k :
  (List.map ascii_lower (slice s p (p + 5)) = u "major"
   ∨ List.map ascii_lower (slice s p (p + 5)) = u "other") →
  k < 5 → word_at ucd s (p + k) = true.
Proof.
  intros Hw Hk. pose proof (keyword_length s p Hw) as Hl. unfold word_at.
  destruct (s !! (p + k)) as [c|] eqn:E.
  - by eapply keyword_letters_word.
  - apply lookup_ge_None in E. lia.
Qed.

Lemma word_boundary_before ucd (s : list N) p :
  word_at ucd s p = true →
  word_boundary ucd s p = true ↔ (∀ c, p ≠ 0 → s !! (p - 1) = Some c → is_word ucd c = false).
Proof.
  intros Hp. unfold word_boundary. rewrite Hp. destruct p as [|q]; simpl.
  - split; [done|]. done.
  - rewrite Nat.sub_0_r. unfold word_at. destruct (s !! q) as [c|]; simpl.
    + destruct (is_word ucd c) eqn:E; simpl; split; try done.
      * intros H. by rewrite (H c) in E.
      * intros _ c' _ [= <-]. done.
    + split; done.
Qed.

Lemma word_boundary_after ucd (s : list N) p :
  word_at ucd s p = true →
  word_boundary ucd s (S p) = true ↔ (∀ c, s !! (S p) = Some c → is_word ucd c = false).
Proof.
  intros Hp. unfold word_boundary. rewrite Hp. unfold word_at.
  destruct (s !! S p) as [c|]; simpl.
  - destruct (is_word ucd c) eqn:E; split; try done.
    + intros H. by rewrite (H c) in E.
    + intros _ c' [= <-]. done.
  - split; done.
Qed.

(** [kw_at] finds exactly the standalone keywords. *)
Lemma kw_at_standalone ucd (s : list N) p e :
  kw_at ucd s p = Some e ↔ e = p + 5 ∧ standalone_keyword ucd s p.
Proof.
  unfold standalone_keyword.
  assert ((List.map ascii_lower (slice s p (p + 5)) = u "major"
           ∨ List.map ascii_lower (slice s p (p + 5)) = u "other") →
          word_at ucd s p = true ∧ word_at ucd s (p + 4) = true) as Hletters.
  { intros Hl. split; [|apply word_at_letter; [done | lia]].
    pose proof (word_at_letter ucd s p 0 Hl) as H0.
    rewrite Nat.add_0_r in H0. apply H0. lia. }
  split.
  - intros H. destruct (kw_at_spec _ _ _ _ H) as (-> & Hl & _). split; [done|].
    split; [done|]. destruct (Hletters Hl) as [Hfirst Hlast].
    unfold kw_at in H.
    destruct (word_boundary ucd s p) eqn:B1; [|done].
    destruct (word_boundary ucd s (p + 5)) eqn:B2; [|by rewrite andb_false_r in H].
    split.
    + by apply word_boundary_before.
    + replace (p + 5) with (S (p + 4)) in * by lia.
      by apply word_boundary_after.
  - intros (-> & Hl & Hb & Ha). destruct (Hletters Hl) as [Hfirst Hlast].
    unfold kw_at.
    assert (word_boundary ucd s p = true) as ->.
    { by apply word_boundary_before. }
    assert (word_boundary ucd s (p + 5) = true) as ->.
    { replace (p + 5) with (S (p + 4)) in * by lia.
      by apply word_boundary_after. }
    unfold slice in Hl. replace (p + 5 - p) with 5 in Hl by lia.
    destruct Hl as [Hl|Hl].
    + rewrite (eat_ci_lower (u "major") _ Hl). done.
    + rewrite (eat_ci_lower (u "other") _ Hl). by rewrite orb_true_r.
Qed.

Lemma kw_at_nonempty ucd s p e : kw_at ucd s p = Some e → p < e.
Proof. intros (-> & _)%kw_at_standalone. lia. Qed.

(** Two keywords do not overlap: inside one, both neighbours of every
    position are letters, so no word starts there. *)
Lemma kw_at_no_overlap ucd s p e q : kw_at ucd s p = Some e → p < q < e → kw_at ucd s q = None.
Proof.
  intros (-> & Hl & _)%kw_at_standalone Hq.
  destruct (kw_at ucd s q) as [e'|] eqn:E; [|done]. exfalso.
  apply kw_at_standalone in E as (_ & _ & Hb & _).
  destruct (s !! (q - 1)) as [c|] eqn:Ec.
  - assert (is_word ucd c = false) as Hf by (apply Hb; [lia | done]).
    assert (is_word ucd c = true); [|congruence].
    apply (keyword_letters_word ucd s p (q - 1 - p) c Hl); [lia|].
    by replace (p + (q - 1 - p)) with (q - 1) by lia.
  - apply lookup_ge_None in Ec. pose proof (keyword_length s p Hl). lia.
Qed.

(** The keyword the extractor works on is the last standalone one. *)
Lemma last_match_keyword ucd (s : list N) st :
  last_standalone_keyword ucd s st →
  last_match (kw_at ucd s) s = Some (st, st + 5).
Proof.
  intros [Hst Hlast]. unfold last_match.
  apply finditer_last_intro.
  - apply kw_at_nonempty.
  - apply kw_at_no_overlap.
  - lia.
  - destruct Hst as (Hl & _). pose proof (keyword_length s st Hl). lia.
  - by apply kw_at_standalone.
  - intros p Hp. destruct (kw_at ucd s p) as [e|] eqn:E; [|done].
    apply kw_at_standalone in E as [_ E]. by destruct (Hlast p Hp).
Qed.

(** No keyword after [st], as a computation on the text at hand. *)
Lemma no_later_keyword ucd (s : list N) st :
  existsb (λ p, is_some (kw_at ucd s p)) (seq (S st) (length s)) = false →
  ∀ p, st < p → ¬ standalone_keyword ucd s p.
Proof.
  intros H p Hp Hk.
  pose proof (keyword_length s p (proj1 Hk)) as Hl.
  assert (kw_at ucd s p = Some (p + 5)) as E by (by apply kw_at_standalone).
  assert (existsb (λ p, is_some (kw_at ucd s p)) (seq (S st) (length s)) = true) as H'.
  { apply existsb_exists. exists p. split; [apply in_seq; lia | by rewrite E]. }
  congruence.
Qed.

(** A text with a standalone keyword has a last one. *)
Lemma last_keyword_exists ucd (s : list N) : ∀ n p,
  length s - p < n → standalone_keyword ucd s p →
  ∃ st, p ≤ st ∧ last_standalone_keyword ucd s st.
Proof.
  induction n as [|n IH]; intros p Hn Hp; [lia|].
  destruct (existsb (λ q, is_some (kw_at ucd s q)) (seq (S p) (length s))) eqn:E.
  - apply existsb_exists in E as (q & Hq%in_seq & Hkw).
    destruct (kw_at ucd s q) as [e|] eqn:Ekw; [|done].
    apply kw_at_standalone in Ekw as [_ Hk].
    pose proof (keyword_length s p (proj1 Hp)) as Hl.
    destruct (IH q) as (st & Hle & Hst); [lia | done |].
    exists st. split; [lia | done].
  - exists p. split; [lia|]. split; [done|]. by apply no_later_keyword.
Qed.

Lemma last_keyword_unique ucd (s : list N) st st' :
  last_standalone_keyword ucd s st → last_standalone_keyword ucd s st' → st = st'.
Proof.
  intros [H1 L1] [H2 L2]. destruct (Nat.lt_trichotomy st st') as [H|[H|H]]; [|done|].
  - by destruct (L1 st' H).
  - by destruct (L2 st H).
Qed.

(** C4, as amended.  Every text without a parenthesized annotation in which
    the standalone word "major" or "other" occurs (in any mix of cases, at
    some index [p]) has a last such occurrence, at an index [st], and the
    extractor works on that one: the keyword there capitalizes to "Major"
    or "Other"; when a hyphen occurs at or after [st] and the tidied text
    after the first such hyphen is not empty, the extractor returns the
    tidied text before the keyword, the capitalized keyword and that tidied
    text; when nothing is left after that hyphen, or no hyphen follows,
    classification and entity are empty and the text is the tidied
    source. *)
Theorem keyword_fallback ucd (s : list N) (p : nat) :
  no_paren_annotation s →
  standalone_keyword ucd s p →
  ∃ st, p ≤ st ∧ last_standalone_keyword ucd s st
    ∧ (ascii_capitalize (slice s st (st + 5)) = u "Major"
       ∨ ascii_capitalize (slice s st (st + 5)) = u "Other")
    ∧ (∀ dash, st ≤ dash → s !! dash = Some HYPHEN →
         (∀ j, st ≤ j < dash → s !! j ≠ Some HYPHEN) →
         tidy (drop (S dash) s) ≠ [] →
         extract_ce_anywhere ucd s =
           (tidy (take st s), ascii_capitalize (slice s st (st + 5)), tidy (drop (S dash) s)))
    ∧ (∀ dash, st ≤ dash → s !! dash = Some HYPHEN →
         (∀ j, st ≤ j < dash → s !! j ≠ Some HYPHEN) →
         tidy (drop (S dash) s) = [] →
         extract_ce_anywhere ucd s = (tidy s, [], []))
    ∧ ((∀ j, st ≤ j → s !! j ≠ Some HYPHEN) → extract_ce_anywhere ucd s = (tidy s, [], [])).
Proof.
  intros Hp Hocc.
  destruct (last_keyword_exists ucd s (S (length s - p)) p) as (st & Hle & Hst); [lia | done |].
  exists st. split; [done|]. split; [done|].
  pose proof (last_match_keyword ucd s st Hst) as Hk.
  destruct (kw_at_spec _ _ _ _ (last_match_Some _ _ _ _ Hk)) as (_ & _ & Hc & Hcap).
  rewrite (extract_ce_anywhere_no_paren ucd s Hp). unfold extract_ce_keyword. rewrite Hk.
  split; [done|]. split; [|split].
  - intros dash H1 H2 H3 Hne. rewrite (find_intro _ _ _ _ H1 H2 H3), Hc.
    destruct (tidy (drop (S dash) s)); done.
  - intros dash H1 H2 H3 He. by rewrite (find_intro _ _ _ _ H1 H2 H3), He.
  - intros Hd. by rewrite (find_none_intro _ _ _ Hd).
Qed.

Lemma keyword_fallback_witness :
  let s := u "Other (a - b) () other pump: mAJOR - Ops" in
  no_paren_annotation s
  ∧ standalone_keyword ucd_fragment s 0
  ∧ last_standalone_keyword ucd_fragment s 29
  ∧ s !! 35 = Some HYPHEN
  ∧ extract_ce_anywhere ucd_fragment s = (u "Other (a - b) () other pump", u "Major", u "Ops").
Proof.
  intros s.
  assert (standalone_keyword ucd_fragment s 0) as H0.
  { split; [right; reflexivity|]. split; [intros c Hc; lia | intros c [= <-]; reflexivity]. }
  assert (last_standalone_keyword ucd_fragment s 29) as H29.
  { split; [|apply no_later_keyword; reflexivity].
    split; [left; reflexivity|]. split; [intros c _ [= <-] | intros c [= <-]]; reflexivity. }
  split; [reflexivity|]. split; [exact H0|]. split; [exact H29|]. split; [reflexivity|].
  destruct (keyword_fallback ucd_fragment s 0) as (st & _ & Hst & _ & H & _);
    [reflexivity | exact H0 |].
  rewrite <- (last_keyword_unique _ _ _ _ H29 Hst) in H.
  apply (H 35); [lia | reflexivity | | vm_compute; congruence].
  intros j Hj. assert (j ∈ seq 29 6) as Hin by (apply elem_of_seq; lia).
  vm_compute in Hin. repeat (apply elem_of_cons in Hin as [->|Hin]; [vm_compute; congruence|]).
  by apply elem_of_nil in Hin.
Defined.

(** C4 as stated fails.  In "major -" the keyword stands alone and a
    hyphen follows it, but nothing is left after the hyphen: no annotation
    is found, the classification is empty and not "Major", and the text is
    the tidied source, not the empty text before the keyword. *)
Lemma keyword_without_entity :
  let s := u "major -" in
  last_match (paren_at s) s = None
  ∧ no_paren_annotation s
  ∧ last_match (kw_at ucd_fragment s) s = Some (0, 5)
  ∧ find HYPHEN s 0 = Some 6
  ∧ extract_ce_anywhere ucd_fragment s = (u "major", [], [])
  ∧ extract_ce_anywhere ucd_fragment s ≠ (take 0 s, u "Major", tidy (drop 7 s)).
Proof. vm_compute. repeat split; congruence. Qed.

(** C1, as amended.  When no annotation is parsed the extractor returns
    the tidied source text with empty classification and entity: whenever
    the classification and the entity it returns are both empty; in
    particular when the text has no parenthesized annotation and no
    standalone keyword; and, in the cross-line variant, when the accumulated span has no
    closing parenthesis (the text is then the tidied first line). *)
Theorem unparsed_annotation_is_tidied ucd :
  (∀ text t c e, extract_ce_anywhere ucd text = (t, c, e) → c = [] → e = [] → t = tidy text)
  ∧ (∀ text, no_paren_annotation text →
       last_match (kw_at ucd text) text = None →
       extract_ce_anywhere ucd text = (tidy text, [], []))
  ∧ (∀ line_list idx first_line,
       contains LPAREN first_line = true →
       contains RPAREN first_line = false →
       contains RPAREN (accumulated ucd line_list idx first_line) = false →
       extract_ce_across_lines ucd line_list idx first_line =
         (tidy first_line, [], [],
          Z.min (Z.of_nat (gather (drop (S idx) line_list) (S idx)).2)
                (Z.of_nat (length line_list) - 1))).
Proof.
  split; [apply extract_ce_anywhere_unparsed|].
  split; [apply extract_ce_anywhere_plain | apply extract_ce_across_lines_unclosed].
Qed.

Lemma unparsed_annotation_is_tidied_witness :
  extract_ce_anywhere ucd_fragment (u "  Check the valve;") = (u "Check the valve", [], [])
  ∧ extract_ce_across_lines ucd_fragment [u "Note. ("; u "see below"] 0 (u "Note. (")
    = (u "Note", [], [], 1%Z).
Proof.
  destruct (unparsed_annotation_is_tidied ucd_fragment) as (_ & H1 & H2). split.
  - apply (H1 (u "  Check the valve;")); [exact I | reflexivity].
  - apply (H2 [u "Note. ("; u "see below"] 0 (u "Note. (")); reflexivity.
Defined.

(** C1 as stated fails.  "Hello." holds no annotation, and the text
    returned is "Hello", not the source; in the cross-line variant the first
    line "Note. (" is never closed, and the text returned is "Note". *)
Lemma unparsed_text_is_altered :
  let s := u "Hello." in
  let first_line := u "Note. (" in
  let line_list := [first_line; u "see below"] in
  last_match (paren_at s) s = None
  ∧ no_paren_annotation s
  ∧ last_match (kw_at ucd_fragment s) s = None
  ∧ extract_ce_anywhere ucd_fragment s = (u "Hello", [], [])
  ∧ extract_ce_anywhere ucd_fragment s ≠ (s, [], [])
  ∧ contains RPAREN (accumulated ucd_fragment line_list 0 first_line) = false
  ∧ extract_ce_across_lines ucd_fragment line_list 0 first_line = (u "Note", [], [], 1%Z)
  ∧ (extract_ce_across_lines ucd_fragment line_list 0 first_line).1.1.1 ≠ first_line.
Proof. vm_compute. repeat split; congruence. Qed.

(** ** Fallback numbering *)

Lemma assign_from_lookup items : ∀ seq i,
  assign_from seq items !! i =
    (λ a, match num a with
          | Some _ => a
          | None => set_num a (seq + N.of_nat (unnumbered (take i items)))
          end) <$> items !! i.
Proof.
  induction items as [|a r IH]; intros seq i; [done|].
  simpl. destruct (num a) as [n|] eqn:E.
  - destruct i as [|i]; simpl.
    + by rewrite E.
    + rewrite IH. unfold unnumbered, is_unnumbered. simpl. by rewrite E.
  - destruct i as [|i]; simpl.
    + rewrite E. unfold unnumbered. simpl. by rewrite N.add_0_r.
    + rewrite IH. unfold unnumbered, is_unnumbered. simpl. rewrite E. simpl.
      destruct (r !! i) as [b|]; [|done]. simpl. destruct (num b); [done|].
      do 2 f_equal. lia.
Qed.

Lemma assign_from_length items : ∀ seq, length (assign_from seq items) = length items.
Proof.
  induction items as [|a r IH]; intros seq; simpl; [done|].
  destruct (num a); simpl; by rewrite IH.
Qed.

Lemma assign_from_num items : ∀ seq,
  Forall (λ a, num a = Some (sort_key a)) (assign_from seq items).
Proof.
  induction items as [|a r IH]; intros seq; simpl; [done|].
  destruct (num a) as [n|] eqn:E; constructor; try done.
  unfold sort_key. by rewrite E.
Qed.

Lemma fallback_numbers_S first k :
  fallback_numbers first (S k) = first :: fallback_numbers (first + 1) k.
Proof.
  unfold fallback_numbers. simpl. rewrite N.add_0_r. f_equal.
  rewrite <- fmap_S_seq, <- list_fmap_compose. apply list_fmap_ext.
  intros _ j _. simpl. lia.
Qed.

Lemma assign_from_keys items : ∀ first,
  sort_key <$> assign_from first items ≡ₚ explicit items ++ fallback_numbers first (unnumbered items).
Proof.
  induction items as [|a r IH]; intros first; [done|].
  unfold explicit, unnumbered, is_unnumbered. simpl.
  destruct (num a) as [n|] eqn:E; simpl.
  - unfold sort_key at 1. rewrite E. simpl. f_equiv. apply IH.
  - rewrite fallback_numbers_S, IH.
    change (sort_key (set_num a first)) with first.
    apply Permutation_middle.
Qed.

Lemma elem_of_fallback_numbers n first k :
  n ∈ fallback_numbers first k ↔ (first <= n < first + N.of_nat k)%N.
Proof.
  unfold fallback_numbers. rewrite list_elem_of_fmap. split.
  - intros (j & -> & Hj%elem_of_seq). lia.
  - intros H. exists (N.to_nat (n - first)). rewrite elem_of_seq. lia.
Qed.

Lemma NoDup_fallback_numbers first k : NoDup (fallback_numbers first k).
Proof.
  unfold fallback_numbers. apply NoDup_fmap_2; [|apply NoDup_seq].
  intros i j. lia.
Qed.

(** ** Sorting *)

Lemma insert_by_key_perm a l : insert_by_key a l ≡ₚ a :: l.
Proof.
  induction l as [|b r IH]; simpl; [done|].
  destruct (sort_key a <=? sort_key b)%N; [done|].
  rewrite IH. apply Permutation_swap.
Qed.

Lemma sorted_perm l : sorted l ≡ₚ l.
Proof.
  induction l as [|a r IH]; simpl; [done|]. by rewrite insert_by_key_perm, IH.
Qed.

Lemma insert_by_key_sorted a l :
  StronglySorted key_le l → StronglySorted key_le (insert_by_key a l).
Proof.
  induction 1 as [|b r Hr IH Hb]; simpl.
  - by repeat constructor.
  - destruct (N.leb_spec (sort_key a) (sort_key b)).
    + constructor; [by constructor|]. constructor; [done|].
      eapply Forall_impl; [exact Hb|]. unfold key_le. intros c. simpl. lia.
    + constructor; [done|]. rewrite insert_by_key_perm. constructor; [|done].
      unfold key_le. lia.
Qed.

Lemma sorted_sorted l : StronglySorted key_le (sorted l).
Proof.
  induction l as [|a r IH]; simpl; [constructor | by apply insert_by_key_sorted].
Qed.

(** Stability: the items of one number keep their order. *)
Lemma insert_by_key_stable n a l :
  List.filter (λ b, sort_key b =? n)%N (insert_by_key a l) =
  List.filter (λ b, sort_key b =? n)%N (a :: l).
Proof.
  induction l as [|b r IH]; [done|]. simpl in *.
  destruct (N.leb_spec (sort_key a) (sort_key b)); [done|]. simpl. rewrite IH.
  destruct (N.eqb_spec (sort_key a) n), (N.eqb_spec (sort_key b) n); try done. lia.
Qed.

Lemma sorted_stable n l :
  List.filter (λ b, sort_key b =? n)%N (sorted l) = List.filter (λ b, sort_key b =? n)%N l.
Proof.
  induction l as [|a r IH]; [done|]. simpl sorted.
  rewrite insert_by_key_stable. simpl. by rewrite IH.
Qed.

(** ** The record sink *)

Lemma truthy_or (a b : list N) :
  (if negb (truthy a) && truthy b then b else a) = if truthy a then a else b.
Proof. by destruct a, b. Qed.

Section Flush.

Variable ucd : UnicodeData.
Variable cols : columns.
Variable src_file : list N.

Lemma write_row_other ws row afi_text cls ent reco label r c :
  r ≠ row →
  write_row ucd cols src_file ws row afi_text cls ent reco label !! (r, c) = ws !! (r, c).
Proof.
  intros Hr. unfold write_row.
  destruct (extract_ce_anywhere ucd afi_text) as [[clean c2] e2].
  rewrite !lookup_insert_ne; [done | congruence ..].
Qed.

Lemma write_row_cells ws row afi_text cls ent reco label :
  NoDup (column_list cols) →
  let ws' := write_row ucd cols src_file ws row afi_text cls ent reco label in
  let '(clean_afi, c2, e2) := extract_ce_anywhere ucd afi_text in
  ws' !! (row, col_afi cols) = Some clean_afi
  ∧ ws' !! (row, col_class cols) = Some (if truthy cls then cls else c2)
  ∧ ws' !! (row, col_reco cols) = Some reco
  ∧ ws' !! (row, col_entity cols) = Some (if truthy ent then ent else e2)
  ∧ ws' !! (row, col_process cols) = Some label
  ∧ ws' !! (row, col_file cols) = Some src_file.
Proof.
  intros Hnd. unfold write_row, column_list in *.
  destruct (extract_ce_anywhere ucd afi_text) as [[clean c2] e2].
  rewrite !truthy_or.
  repeat match goal with
         | H : NoDup (_ :: _) |- _ => apply NoDup_cons in H as [? H]
         end.
  repeat match goal with
         | H : _ ∉ _ :: _ |- _ => apply not_elem_of_cons in H as [? H]
         end.
  repeat split;
    repeat first [ apply lookup_insert_eq | rewrite lookup_insert_ne by congruence ].
Qed.

Lemma write_items_row items : ∀ ws row recs label,
  (write_items ucd cols src_file ws row recs label items).2 = row + length items.
Proof.
  induction items as [|a r IH]; intros; simpl; [lia|]. rewrite IH. lia.
Qed.

Lemma write_items_before items : ∀ ws row recs label r c,
  r < row →
  (write_items ucd cols src_file ws row recs label items).1 !! (r, c) = ws !! (r, c).
Proof.
  induction items as [|a l IH]; intros ws row recs label r c Hr; simpl; [done|].
  rewrite IH by lia. apply write_row_other. lia.
Qed.

(** The row of the [k]-th item written holds what [write_row] computes
    from it. *)
Lemma write_items_cells items : ∀ ws row recs label k a,
  NoDup (column_list cols) →
  items !! k = Some a →
  let ws' := (write_items ucd cols src_file ws row recs label items).1 in
  let '(clean_afi, c2, e2) := extract_ce_anywhere ucd (text a) in
  ws' !! (row + k, col_afi cols) = Some clean_afi
  ∧ ws' !! (row + k, col_class cols) = Some (if truthy (cls a) then cls a else c2)
  ∧ ws' !! (row + k, col_reco cols) = Some (recs_get recs (py_str (sort_key a)))
  ∧ ws' !! (row + k, col_entity cols) = Some (if truthy (ent a) then ent a else e2)
  ∧ ws' !! (row + k, col_process cols) = Some label
  ∧ ws' !! (row + k, col_file cols) = Some src_file.
Proof.
  induction items as [|b l IH]; intros ws row recs label k a Hnd Hk; [done|].
  destruct k as [|k]; simpl in *.
  - injection Hk as ->. rewrite Nat.add_0_r, !write_items_before by lia.
    apply (write_row_cells ws row (text a) (cls a) (ent a)
             (recs_get recs (py_str (sort_key a))) label Hnd).
  - replace (row + S k) with (S row + k) by lia. by apply IH.
Qed.

End Flush.

(** ** The item associator *)

Lemma NoDup_explicit_resolved (items : list afi) :
  NoDup (num <$> assign_fallback items) ↔ NoDup (sort_key <$> assign_fallback items).
Proof.
  assert (num <$> assign_fallback items = Some <$> (sort_key <$> assign_fallback items)) as ->.
  { rewrite <- list_fmap_compose. apply Forall_fmap_ext_1.
    eapply Forall_impl; [apply assign_from_num | done]. }
  split; [apply NoDup_fmap_1 | apply NoDup_fmap_2; by intros ?? [=]].
Qed.

(** C3, as amended.  After the fallback numbers are assigned, no two items
    of a block share a resolved number exactly when the explicit numbers are
    pairwise distinct and none of them lies in 1 .. k, where k is the number
    of items without an explicit number (so always when every number is
    assigned by fallback). *)
Theorem resolved_numbers_distinct_iff (items : list afi) :
  NoDup (num <$> assign_fallback items) ↔
  NoDup (explicit items)
  ∧ ∀ n, n ∈ explicit items → ¬ (1 <= n <= N.of_nat (unnumbered items))%N.
Proof.
  rewrite NoDup_explicit_resolved. unfold assign_fallback.
  rewrite assign_from_keys, NoDup_app. split.
  - intros (H1 & H2 & _). split; [done|]. intros n Hn Hr.
    apply (H2 n Hn). apply elem_of_fallback_numbers. lia.
  - intros [H1 H2]. split; [done|]. split; [|apply NoDup_fallback_numbers].
    intros n Hn Hf%elem_of_fallback_numbers. apply (H2 n Hn). lia.
Qed.

Lemma resolved_numbers_distinct_iff_witness :
  let items := [ {| num := None; text := u "Late reports"; cls := u "Major"; ent := u "Ops" |};
                 {| num := Some 7%N; text := u "No owner"; cls := u "Other"; ent := u "HR" |};
                 {| num := None; text := u "Stale data"; cls := []; ent := u "IT" |} ] in
  num <$> assign_fallback items = [Some 1%N; Some 7%N; Some 2%N]
  ∧ NoDup (num <$> assign_fallback items).
Proof.
  intros items. split; [reflexivity|].
  apply (resolved_numbers_distinct_iff items). split.
  - vm_compute. apply NoDup_singleton.
  - intros n Hn. vm_compute in Hn. apply list_elem_of_singleton in Hn as ->.
    vm_compute. intros [_ H]. by apply H.
Defined.

(** C3 as stated fails.  In an AFI section the line "1 - Bad process
    (Major - Ops)" gives an item with the explicit number 1 and the line
    "Improve widget handling (Major - Logistics)" an item without a number;
    the flush numbers the second one 1 as well. *)
Lemma explicit_number_collides_with_fallback :
  let lines := [u "1 - Bad process (Major - Ops)";
                u "Improve widget handling (Major - Logistics)"] in
  let st := run ucd_fragment default_columns (u "a.docx") 2 lines 0 (afi_section ∅ 2) in
  num <$> afis st = [Some 1%N; None]
  ∧ num <$> assign_fallback (afis st) = [Some 1%N; Some 1%N]
  ∧ ¬ NoDup (num <$> assign_fallback (afis st)).
Proof.
  vm_compute. repeat split. intros H. apply NoDup_cons in H as [H _].
  apply H. constructor.
Qed.

Section Associator.

Variable ucd : UnicodeData.
Variable cols : columns.
Variable src_file : list N.

Lemma flush_block_afis (st : state) :
  afis (flush_block ucd cols src_file st) = assign_fallback (afis st).
Proof.
  unfold flush_block.
  destruct (negb (bool_decide (afis st = [])) || negb (bool_decide (recs st = ∅))) eqn:E.
  - by destruct (write_items _ _ _ _ _ _ _ _).
  - apply orb_false_iff in E as [E _]. apply negb_false_iff, bool_decide_eq_true in E.
    by rewrite E.
Qed.

(** C2.  The flush replaces the items of the block, one for one and in
    place, by their resolved form.  The item at index [i] keeps its text,
    classification and entity; with an explicit number [n] its number stays
    [n]; without one its number becomes k, where k - 1 items before it have
    no explicit number: the items without a number get 1, 2, 3, ... in the
    order they were added, whatever the explicit numbers are. *)
Theorem fallback_numbers_in_order (st : state) (i : nat) :
  afis (flush_block ucd cols src_file st) = assign_fallback (afis st)
  ∧ length (assign_fallback (afis st)) = length (afis st)
  ∧ ∀ a, afis st !! i = Some a →
      ∃ a', assign_fallback (afis st) !! i = Some a'
        ∧ text a' = text a ∧ cls a' = cls a ∧ ent a' = ent a
        ∧ num a' = Some (match num a with
                         | Some n => n
                         | None => N.of_nat (S (unnumbered (take i (afis st))))
                         end).
Proof.
  split; [apply flush_block_afis|]. split; [apply assign_from_length|].
  intros a Ha. unfold assign_fallback. rewrite assign_from_lookup, Ha. simpl.
  destruct (num a) as [n|] eqn:E.
  - exists a. by rewrite E.
  - eexists. split; [reflexivity|]. simpl. repeat split. f_equal. lia.
Qed.

Lemma flush_block_emits (st : state) :
  ws (flush_block ucd cols src_file st) =
    (write_items ucd cols src_file (ws st) (row st) (recs st) (process_label st)
       (sorted (assign_fallback (afis st)))).1
  ∧ row (flush_block ucd cols src_file st) = row st + length (afis st).
Proof.
  unfold flush_block.
  destruct (negb (bool_decide (afis st = [])) || negb (bool_decide (recs st = ∅))) eqn:E.
  - pose proof (write_items_row ucd cols src_file (sorted (assign_fallback (afis st)))
                  (ws st) (row st) (recs st) (process_label st)) as Hr.
    destruct (write_items _ _ _ _ _ _ _ _) as [ws' row']. simpl in *. split; [done|].
    rewrite Hr, sorted_perm. unfold assign_fallback. by rewrite assign_from_length.
  - apply orb_false_iff in E as [E _]. apply negb_false_iff, bool_decide_eq_true in E.
    rewrite E. simpl. split; [done | lia].
Qed.

(** C6.  The items a flush emits are the resolved items of the block
    sorted by number, ascending, items of one number in the order they were
    added; the k-th of them is written to the k-th row from the current one,
    and the recommendation written there is the accumulator entry under the
    decimal form of the item's number, or the empty string when the
    accumulator has none. *)
Theorem flush_emits_sorted (st : state) :
  let emitted := sorted (assign_fallback (afis st)) in
  StronglySorted key_le emitted
  ∧ emitted ≡ₚ assign_fallback (afis st)
  ∧ Forall (λ a, num a = Some (sort_key a)) emitted
  ∧ (∀ n, List.filter (λ b, sort_key b =? n)%N emitted
          = List.filter (λ b, sort_key b =? n)%N (assign_fallback (afis st)))
  ∧ row (flush_block ucd cols src_file st) = row st + length emitted
  ∧ (NoDup (column_list cols) → ∀ k a, emitted !! k = Some a →
       ws (flush_block ucd cols src_file st) !! (row st + k, col_reco cols)
       = Some (default [] (recs st !! py_str (sort_key a)))).
Proof.
  intros emitted. destruct (flush_block_emits st) as [Hw Hr].
  split; [apply sorted_sorted|]. split; [apply sorted_perm|].
  split; [unfold emitted; rewrite sorted_perm; apply assign_from_num|].
  split; [intros n; apply sorted_stable|].
  split.
  - rewrite Hr. unfold emitted. rewrite sorted_perm. unfold assign_fallback.
    by rewrite assign_from_length.
  - intros Hnd k a Hk. rewrite Hw.
    pose proof (write_items_cells ucd cols src_file _ (ws st) (row st) (recs st)
                  (process_label st) k a Hnd Hk) as H.
    simpl in H. destruct (extract_ce_anywhere ucd (text a)) as [[? ?] ?].
    by destruct H as (_ & _ & H & _).
Qed.

(** C9.  [write_row] runs the extractor on the AFI text once more: the
    AFI cell holds the text the extractor returns; the classification cell
    holds the item's classification when it is not empty and the extracted
    one otherwise, and likewise the entity cell.  This is so for the row of
    every item a flush emits. *)
Theorem write_row_reextracts (sheet : gmap (nat * nat) (list N)) (r : nat)
    (afi_text cls0 ent0 reco label : list N) :
  NoDup (column_list cols) →
  (let ws' := write_row ucd cols src_file sheet r afi_text cls0 ent0 reco label in
   let '(clean_afi, c2, e2) := extract_ce_anywhere ucd afi_text in
   ws' !! (r, col_afi cols) = Some clean_afi
   ∧ ws' !! (r, col_class cols) = Some (if truthy cls0 then cls0 else c2)
   ∧ ws' !! (r, col_entity cols) = Some (if truthy ent0 then ent0 else e2))
  ∧ (∀ st k a, sorted (assign_fallback (afis st)) !! k = Some a →
       let ws' := ws (flush_block ucd cols src_file st) in
       let '(clean_afi, c2, e2) := extract_ce_anywhere ucd (text a) in
       ws' !! (row st + k, col_afi cols) = Some clean_afi
       ∧ ws' !! (row st + k, col_class cols) = Some (if truthy (cls a) then cls a else c2)
       ∧ ws' !! (row st + k, col_entity cols) = Some (if truthy (ent a) then ent a else e2)).
Proof.
  intros Hnd. split.
  - pose proof (write_row_cells ucd cols src_file sheet r afi_text cls0 ent0 reco label Hnd) as H.
    simpl in *. destruct (extract_ce_anywhere ucd afi_text) as [[? ?] ?].
    by destruct H as (? & ? & _ & ? & _).
  - intros st k a Hk. simpl. destruct (flush_block_emits st) as [-> _].
    pose proof (write_items_cells ucd cols src_file _ (ws st) (row st)
                  (recs st) (process_label st) k a Hnd Hk) as H.
    simpl in H. destruct (extract_ce_anywhere ucd (text a)) as [[? ?] ?].
    by destruct H as (? & ? & _ & ? & _).
Qed.

End Associator.

Lemma fallback_numbers_in_order_witness :
  let item n t := {| num := n; text := t; cls := u "Major"; ent := u "Ops" |} in
  let items := [item (Some 7%N) (u "a"); item None (u "b"); item (Some 1%N) (u "c");
                item None (u "d")] in
  let st := {| ws := ∅; row := 2; in_afi := true; in_reco := false; process_label := [];
               afis := items; recs := ∅; cur_rec_num := None; cur_rec_parts := [];
               last_afi_idx := Some 3 |} in
  afis st !! 3 = Some (item None (u "d"))
  ∧ (∃ a', assign_fallback (afis st) !! 3 = Some a' ∧ text a' = u "d" ∧ num a' = Some 2%N)
  ∧ num <$> afis (flush_block ucd_fragment default_columns (u "a.docx") st)
    = [Some 7%N; Some 1%N; Some 1%N; Some 2%N].
Proof.
  intros item items st. split; [reflexivity|]. split; [|reflexivity].
  destruct (fallback_numbers_in_order ucd_fragment default_columns (u "a.docx") st 3)
    as (_ & _ & H).
  destruct (H (item None (u "d")) eq_refl) as (a' & H1 & H2 & _ & _ & H3).
  exists a'. split; [exact H1|]. split; [exact H2 | exact H3].
Defined.


(** ** The section state machine *)

Lemma drop_S_app_length {A} (pre : list A) x r : drop (S (length pre)) (pre ++ x :: r) = r.
Proof. induction pre as [|y pre IH]; simpl; [by rewrite drop_0 | done]. Qed.

Section Steps.

Variable ucd : UnicodeData.
Variable cols : columns.
Variable src_file : list N.

Lemma step_plain lines i line st :
  is_header ucd line = false →
  step ucd cols src_file lines i line st =
    if in_afi st then
      if fullmatch_paren line then
        let '(_, c, e) := extract_ce_anywhere ucd line in
        match last_afi_idx st with
        | Some k =>
            if truthy c || truthy e then
              (set_afis st (alter (annotate c e) k (afis st)) (last_afi_idx st), S i)
            else (st, S i)
        | None => (st, S i)
        end
      else
        match RE_NUM_ITEM ucd line with
        | Some (g1, body) =>
            let '(clean, cls, ent, j) := extract_ce_across_lines ucd lines i body in
            (append_afi st {| num := Some (py_int ucd g1); text := clean; cls := cls; ent := ent |},
             Z.to_nat (Z.max (Z.of_nat i) j + 1))
        | None =>
            if contains LPAREN line then
              let '(clean, cls, ent, j) := extract_ce_across_lines ucd lines i line in
              if truthy cls || truthy ent then
                (append_afi st {| num := None; text := clean; cls := cls; ent := ent |},
                 Z.to_nat (j + 1))
              else (st, S i)
            else (st, S i)
        end
    else if in_reco st then
      match RE_NUM_ITEM ucd line with
      | Some (g1, g2) => (set_reco (flush_reco st) (Some g1) [tidy g2], S i)
      | None =>
          (set_reco st (Some (default (u "1") (cur_rec_num st))) (cur_rec_parts st ++ [tidy line]),
           S i)
      end
    else (st, S i).
Proof.
  unfold is_header, step. intros H.
  apply orb_false_iff in H as [H H4]. apply orb_false_iff in H as [H H3].
  rewrite H, H3, H4. done.
Qed.

Lemma step_reco_numbered lines i line st g1 g2 :
  is_header ucd line = false → in_afi st = false → in_reco st = true →
  RE_NUM_ITEM ucd line = Some (g1, g2) →
  step ucd cols src_file lines i line st = (set_reco (flush_reco st) (Some g1) [tidy g2], S i).
Proof. intros H Ha Hr Hm. rewrite step_plain by done. by rewrite Ha, Hr, Hm. Qed.

Lemma step_reco_continuation lines i line st :
  is_header ucd line = false → in_afi st = false → in_reco st = true →
  RE_NUM_ITEM ucd line = None →
  step ucd cols src_file lines i line st =
    (set_reco st (Some (default (u "1") (cur_rec_num st))) (cur_rec_parts st ++ [tidy line]), S i).
Proof. intros H Ha Hr Hm. rewrite step_plain by done. by rewrite Ha, Hr, Hm. Qed.

Lemma across_two_lines pre post :
  extract_ce_across_lines ucd (pre ++ WIDGET_1 :: WIDGET_2 :: post) (length pre) WIDGET_1 =
    (u "Improve widget handling", u "Major", u "Logistics", Z.of_nat (S (length pre))).
Proof.
  unfold extract_ce_across_lines.
  replace (contains LPAREN WIDGET_1 && negb (contains RPAREN WIDGET_1)) with true by reflexivity.
  rewrite drop_S_app_length. cbn [gather].
  replace (contains RPAREN WIDGET_2) with true by reflexivity.
  replace (Z.min (Z.of_nat (S (length pre))) (Z.of_nat (length (pre ++ WIDGET_1 :: WIDGET_2 :: post)) - 1))
    with (Z.of_nat (S (length pre))) by (rewrite length_app; simpl; lia).
  generalize (Z.of_nat (S (length pre))). intros j.
  vm_compute. reflexivity.
Qed.

(** C5.  In the AFI state the line "Improve widget handling (" followed
    by "Major - Logistics)" adds exactly one item, without a number, with
    text "Improve widget handling", classification "Major" and entity
    "Logistics", and the next line processed is the one after the second (the
    second line is never handled on its own).  The single line
    "Improve widget handling (Major - Logistics)" gives the same three
    fields. *)
Theorem cross_line_annotation_item (pre post : list (list N)) (st : state) :
  in_afi st = true →
  let lines := pre ++ WIDGET_1 :: WIDGET_2 :: post in
  let item := {| num := None; text := u "Improve widget handling";
                 cls := u "Major"; ent := u "Logistics" |} in
  lines !! length pre = Some WIDGET_1
  ∧ lines !! S (length pre) = Some WIDGET_2
  ∧ step ucd cols src_file lines (length pre) WIDGET_1 st = (append_afi st item, length pre + 2)
  ∧ afis (append_afi st item) = afis st ++ [item]
  ∧ (∀ fuel, run ucd cols src_file (S fuel) lines (length pre) st
             = run ucd cols src_file fuel lines (length pre + 2) (append_afi st item))
  ∧ extract_ce_anywhere ucd (u "Improve widget handling (Major - Logistics)")
    = (u "Improve widget handling", u "Major", u "Logistics").
Proof.
  intros Ha lines item.
  assert (lines !! length pre = Some WIDGET_1) as Hl by apply list_lookup_middle, eq_refl.
  assert (step ucd cols src_file lines (length pre) WIDGET_1 st
          = (append_afi st item, length pre + 2)) as Hs.
  { unfold lines. rewrite step_plain by reflexivity. rewrite Ha.
    replace (fullmatch_paren WIDGET_1) with false by reflexivity.
    replace (RE_NUM_ITEM ucd WIDGET_1) with (@None (list N * list N)) by reflexivity.
    replace (contains LPAREN WIDGET_1) with true by reflexivity.
    rewrite across_two_lines.
    replace (truthy (u "Major") || truthy (u "Logistics")) with true by reflexivity.
    f_equal. lia. }
  split; [done|]. split.
  { unfold lines. rewrite (cons_middle WIDGET_1), app_assoc.
    replace (S (length pre)) with (length (pre ++ [WIDGET_1])) by (rewrite length_app; simpl; lia).
    by apply list_lookup_middle. }
  split; [done|]. split; [done|]. split; [|reflexivity].
  intros fuel. simpl. by rewrite Hl, Hs.
Qed.

End Steps.

Lemma join_nonempty sep (l : list (list N)) :
  Forall (λ p, p ≠ []) l → join sep l = [] → l = [].
Proof.
  destruct l as [|p [|q r]]; simpl; [done| |].
  - intros [Hp _]%Forall_cons ->. done.
  - intros [Hp _]%Forall_cons H. by apply app_eq_nil in H as [-> _].
Qed.

Lemma filter_truthy_nonempty (l : list (list N)) : Forall (λ p, p ≠ []) (List.filter truthy l).
Proof.
  induction l as [|p r IH]; simpl; [done|].
  destruct p; simpl; [done|]. by constructor.
Qed.

Lemma filter_truthy_id (l : list (list N)) : Forall (λ p, p ≠ []) l → List.filter truthy l = l.
Proof.
  induction 1 as [|p r Hp Hr IH]; simpl; [done|]. destruct p; [done|]. simpl. by rewrite IH.
Qed.

Lemma filter_truthy_nil (l : list (list N)) : Forall (λ p, p = []) l → List.filter truthy l = [].
Proof. induction 1 as [|p r -> Hr IH]; simpl; done. Qed.

Section Reco.

Variable ucd : UnicodeData.
Variable cols : columns.
Variable src_file : list N.

Lemma flush_reco_recs st k :
  cur_rec_num st = Some k →
  recs (flush_reco st) =
    let txt := join BAR (List.filter truthy (cur_rec_parts st)) in
    if truthy txt then
      <[k := recs_get (recs st) k ++ (if truthy (recs_get (recs st) k) then BAR else []) ++ txt]>
        (recs st)
    else recs st.
Proof. intros H. unfold flush_reco. rewrite H. done. Qed.

(** C10.  When the open number [k] already has an accumulator entry, the
    flush appends the joined fragments to it after a " | " separator and
    does not replace it; without an entry the joined fragments become the
    entry; the fragments joined are the non-empty ones, and when all of them
    are empty the accumulator stays as it is; the other keys are untouched. *)
Theorem flush_reco_merges (st : state) (k : list N) :
  cur_rec_num st = Some k →
  let txt := join BAR (List.filter truthy (cur_rec_parts st)) in
  (∀ prev, recs st !! k = Some prev → prev ≠ [] → txt ≠ [] →
     recs (flush_reco st) !! k = Some (prev ++ BAR ++ txt))
  ∧ (recs st !! k = None → txt ≠ [] → recs (flush_reco st) !! k = Some txt)
  ∧ (Forall (λ p, p = []) (cur_rec_parts st) → recs (flush_reco st) = recs st)
  ∧ (∀ k', k' ≠ k → recs (flush_reco st) !! k' = recs st !! k')
  ∧ (txt = [] ↔ Forall (λ p, p = []) (cur_rec_parts st)).
Proof.
  intros Hk txt. rewrite (flush_reco_recs _ _ Hk). fold txt. cbv zeta.
  repeat split.
  - intros prev Hp Hne Ht. unfold recs_get. rewrite Hp. simpl.
    destruct txt; [done|]. destruct prev; [done|]. simpl. by rewrite lookup_insert_eq.
  - intros Hp Ht. unfold recs_get. rewrite Hp. simpl.
    destruct txt; [done|]. simpl. by rewrite lookup_insert_eq.
  - intros Hall. subst txt. by rewrite (filter_truthy_nil _ Hall).
  - intros k' Hne. destruct (truthy txt); [|done]. by rewrite lookup_insert_ne.
  - intros Ht. apply join_nonempty in Ht; [|apply filter_truthy_nonempty].
    clear -Ht. induction (cur_rec_parts st) as [|p r IH]; [done|].
    simpl in Ht. destruct p; [|done]. constructor; [done | by apply IH].
  - intros Hall. subst txt. by rewrite (filter_truthy_nil _ Hall).
Qed.

Lemma run_reco_lines st :
  in_afi st = false → in_reco st = true →
  run ucd cols src_file 3 RECO_LINES 0 st =
    set_reco (flush_reco
      (set_reco (set_reco (flush_reco st) (Some (u "1")) [u "Do X"])
         (Some (u "1")) [u "Do X"; u "continue doing X"]))
      (Some (u "2")) [u "Do Y"].
Proof.
  intros Ha Hr. unfold run, RECO_LINES. cbn [lookup list_lookup].
  rewrite (step_reco_numbered ucd cols src_file _ _ _ _ (u "1") (u "Do X")) by done.
  cbn [lookup list_lookup].
  rewrite step_reco_continuation by done.
  cbn [lookup list_lookup].
  rewrite (step_reco_numbered ucd cols src_file _ _ _ _ (u "2") (u "Do Y")) by done.
  reflexivity.
Qed.

(** C7.  From a recommendation section with an empty accumulator the lines
    "1 - Do X", "continue doing X", "2 - Do Y" give, once flushed, the
    accumulator {"1": "Do X | continue doing X", "2": "Do Y"}.  In general,
    in the recommendation state, a numbered line flushes the open key and
    opens the key of its number with its tidied remainder; an unnumbered line
    appends its tidied text to the open key, opening "1" when none is open;
    and the flush of a fresh key joins its (non-empty) fragments with " | "
    in the order they came. *)
Theorem recommendation_lines_merge (st : state) :
  in_afi st = false → in_reco st = true →
  (recs st = ∅ → cur_rec_num st = None →
     recs (flush_reco (run ucd cols src_file 3 RECO_LINES 0 st))
     = <[u "2" := u "Do Y"]> (<[u "1" := u "Do X | continue doing X"]> ∅))
  ∧ (∀ lines i line g1 g2,
       is_header ucd line = false → RE_NUM_ITEM ucd line = Some (g1, g2) →
       step ucd cols src_file lines i line st
       = (set_reco (flush_reco st) (Some g1) [tidy g2], S i))
  ∧ (∀ lines i line,
       is_header ucd line = false → RE_NUM_ITEM ucd line = None →
       step ucd cols src_file lines i line st
       = (set_reco st (Some (default (u "1") (cur_rec_num st))) (cur_rec_parts st ++ [tidy line]),
          S i))
  ∧ (∀ k, cur_rec_num st = Some k → recs st !! k = None →
       cur_rec_parts st ≠ [] → Forall (λ p, p ≠ []) (cur_rec_parts st) →
       recs (flush_reco st) !! k = Some (join BAR (cur_rec_parts st))).
Proof.
  intros Ha Hr. repeat split.
  - intros He Hc. rewrite run_reco_lines by done.
    unfold flush_reco at 1 2 3. rewrite Hc, He. reflexivity.
  - intros. by apply step_reco_numbered.
  - intros. by apply step_reco_continuation.
  - intros k Hk Hn Hne Hall.
    destruct (flush_reco_merges st k Hk) as (_ & H & _).
    rewrite (filter_truthy_id _ Hall) in H. apply H; [done|].
    intros Hj. by apply join_nonempty in Hj.
Qed.

End Reco.

(** ** The loop *)

Section Loop.

Variable ucd : UnicodeData.
Variable cols : columns.
Variable src_file : list N.






End Loop.

(** ** The examples of the design document *)

Lemma default_columns_distinct : NoDup (column_list default_columns).
Proof. apply (bool_decide_unpack _). vm_compute. exact I. Qed.

Lemma cross_line_annotation_item_witness :
  let pre := [u "Areas for Improvement:"] in
  let item := {| num := None; text := u "Improve widget handling";
                 cls := u "Major"; ent := u "Logistics" |} in
  in_afi (afi_section ∅ 2) = true
  ∧ step ucd_fragment default_columns (u "a.docx") (pre ++ [WIDGET_1; WIDGET_2]) 1 WIDGET_1
      (afi_section ∅ 2)
    = (append_afi (afi_section ∅ 2) item, 3).
Proof.
  intros pre item. split; [reflexivity|].
  destruct (cross_line_annotation_item ucd_fragment default_columns (u "a.docx") pre []
              (afi_section ∅ 2)) as (_ & _ & H & _); [reflexivity|].
  exact H.
Defined.

Lemma flush_emits_sorted_witness :
  NoDup (column_list default_columns)
  ∧ ws (flush_block ucd_fragment default_columns (u "a.docx") SAMPLE_BLOCK) !! (2, 3)
    = Some (u "Name an owner")
  ∧ ws (flush_block ucd_fragment default_columns (u "a.docx") SAMPLE_BLOCK) !! (3, 3)
    = Some (u "Add staff").
Proof.
  split; [exact default_columns_distinct|].
  destruct (flush_emits_sorted ucd_fragment default_columns (u "a.docx") SAMPLE_BLOCK)
    as (_ & _ & _ & _ & _ & H).
  specialize (H default_columns_distinct). split.
  - exact (H 0 {| num := Some 1%N; text := u "No owner"; cls := u "Other"; ent := u "HR" |}
             eq_refl).
  - exact (H 1 {| num := Some 2%N; text := u "Slow intake (Major - Ops)"; cls := []; ent := [] |}
             eq_refl).
Defined.

Lemma write_row_reextracts_witness :
  let sheet := write_row ucd_fragment default_columns (u "a.docx") ∅ 2
                 (u "Slow intake (Major - Ops)") [] (u "Desk") (u "Add staff") (u "Value") in
  NoDup (column_list default_columns)
  ∧ sheet !! (2, 1) = Some (u "Slow intake")
  ∧ sheet !! (2, 2) = Some (u "Major")
  ∧ sheet !! (2, 4) = Some (u "Desk").
Proof.
  intros sheet. split; [exact default_columns_distinct|].
  exact (proj1 (write_row_reextracts ucd_fragment default_columns (u "a.docx") ∅ 2
                  (u "Slow intake (Major - Ops)") [] (u "Desk") (u "Add staff") (u "Value")
                  default_columns_distinct)).
Defined.

Lemma recommendation_lines_merge_witness :
  in_afi (reco_section ∅ 2) = false
  ∧ in_reco (reco_section ∅ 2) = true
  ∧ recs (flush_reco (run ucd_fragment default_columns (u "a.docx") 3 RECO_LINES 0
                        (reco_section ∅ 2)))
    = <[u "2" := u "Do Y"]> (<[u "1" := u "Do X | continue doing X"]> ∅).
Proof.
  split; [reflexivity|]. split; [reflexivity|].
  destruct (recommendation_lines_merge ucd_fragment default_columns (u "a.docx")
              (reco_section ∅ 2)) as (H & _); [reflexivity | reflexivity |].
  apply H; reflexivity.
Defined.

Lemma flush_reco_merges_witness :
  cur_rec_num REOPENED = Some (u "1")
  ∧ recs REOPENED !! u "1" = Some (u "Do X")
  ∧ recs (flush_reco REOPENED) !! u "1" = Some (u "Do X | Do Z").
Proof.
  split; [reflexivity|]. split; [reflexivity|].
  destruct (flush_reco_merges REOPENED (u "1")) as (H & _); [reflexivity|].
  apply (H (u "Do X")); [reflexivity | vm_compute; congruence | vm_compute; congruence].
Defined.

(** The number "1" opened twice in one block, from the lines themselves. *)
Example reopened_number_appends :
  let lines := [u "1 - Do X"; u "2 - Do Y"; u "1 - ;"; u "Do Z"] in
  recs (flush_reco (run ucd_fragment default_columns (u "a.docx") 4 lines 0 (reco_section ∅ 2)))
  = <[u "2" := u "Do Y"]> (<[u "1" := u "Do X | Do Z"]> ∅).
Proof. vm_compute. reflexivity. Qed.

(** The end-to-end example: one record, in row 2. *)
Example intake_document :
  let st := process_lines ucd_fragment default_columns (u "a.docx") INTAKE_DOC ∅ 2 in
  row st = 3
  ∧ ws st = <[(2, 7) := u "a.docx"]> (<[(2, 5) := u "1.0" ++ LABEL_SEP ++ u "Intake"]>
            (<[(2, 4) := u "Ops"]> (<[(2, 3) := u "Fix it"]> (<[(2, 2) := u "Major"]>
            (<[(2, 1) := u "Bad process"]> ∅))))).
Proof. vm_compute. split; reflexivity. Qed.

Example py_str_decimal : py_str 0 = u "0" ∧ py_str 12 = u "12" ∧ py_str 305 = u "305".
Proof. vm_compute. repeat split. Qed.

(** * Further properties *)

(** ** More on the normalizer *)

Lemma contains_elem_of c (l : list N) : contains c l = true ↔ c ∈ l.
Proof.
  unfold contains. rewrite existsb_exists. setoid_rewrite list_elem_of_In. split.
  - intros (x & Hx & ->%N.eqb_eq). done.
  - intros H. exists c. by rewrite N.eqb_refl.
Qed.

Lemma contains_not_elem_of c (l : list N) : contains c l = false ↔ c ∉ l.
Proof. rewrite <- contains_elem_of. by destruct (contains c l). Qed.

Lemma rstrip_by_last p s c : last (rstrip_by p s) = Some c → p c = false.
Proof.
  induction s as [|x r IH]; simpl; [done|].
  destruct (rstrip_by p r) as [|d r'] eqn:E.
  - destruct (p x) eqn:Ex; simpl; [done|]. by intros [= <-].
  - intros H. apply IH. by rewrite last_cons_cons in H.
Qed.

Lemma rstrip_by_id p s : (∀ c, last s = Some c → p c = false) → rstrip_by p s = s.
Proof.
  induction s as [|x r IH]; simpl; [done|]. intros H.
  destruct r as [|d r'].
  - simpl. by rewrite (H x eq_refl).
  - rewrite IH; [done|]. intros c Hc. apply H. by rewrite last_cons_cons.
Qed.

Lemma lstrip_by_id' p s : (∀ c, head s = Some c → p c = false) → lstrip_by p s = s.
Proof. destruct s as [|x r]; simpl; [done|]. intros H. by rewrite (H x eq_refl). Qed.

Lemma rstrip_by_head p s c : head (rstrip_by p s) = Some c → head s = Some c.
Proof.
  destruct s as [|x r]; simpl; [done|].
  destruct (rstrip_by p r); [destruct (p x)|]; simpl; done.
Qed.

Lemma strip_by_trimmed p s : trimmed p (strip_by p s).
Proof.
  unfold strip_by. split.
  - intros c Hc%rstrip_by_head. destruct (lstrip_by p s) as [|x r] eqn:E; [done|].
    injection Hc as <-. by eapply lstrip_by_head.
  - apply rstrip_by_last.
Qed.

Lemma strip_by_id p s : trimmed p s → strip_by p s = s.
Proof. intros [H1 H2]. unfold strip_by. rewrite (lstrip_by_id' _ _ H1). by apply rstrip_by_id. Qed.

(** A normalized line holds no zero-width character, no-break space,
    carriage return or tab, no dash but the ASCII hyphen, no two adjacent
    spaces, and no white space at either end. *)
Theorem norm_output_clean ucd (s : list N) :
  let t := norm ucd s in
  Forall (λ c, (c ∉ ZERO_WIDTH) ∧ c ≠ NBSP ∧ c ≠ CR ∧ c ≠ TAB ∧ (c ∈ DASH_CHARS → c = HYPHEN)) t
  ∧ single_spaced t
  ∧ trimmed isspace t.
Proof.
  intros t. destruct (norm_normalized ucd s) as [Hz Hn Hr Ht Hd Hs Hst].
  fold t in Hz, Hn, Hr, Ht, Hd, Hs, Hst.
  split; [|split; [done|]].
  - apply Forall_forall. intros c Hc.
    rewrite Forall_forall in Hz, Hn, Hr, Ht, Hd.
    repeat split; [| by apply Hn | by apply Hr | by apply Ht |].
    + apply contains_not_elem_of. by apply Hz.
    + intros Hin%contains_elem_of. by apply Hd.
  - unfold t, norm. apply strip_by_trimmed.
Qed.

(** On an ASCII line the normalizer does not consult the Unicode database:
    the result is ASCII, the same for every database, and a fixed point. *)
Theorem norm_ascii_line ucd ucd' (s : list N) :
  forallb is_ascii s = true →
  forallb is_ascii (norm ucd s) = true
  ∧ norm ucd s = norm ucd' s
  ∧ norm ucd (norm ucd s) = norm ucd s.
Proof.
  intros H. split; [by apply norm_ascii|]. split; [|by apply norm_idempotent_ascii].
  unfold norm, normalize_NFKC. by rewrite H.
Qed.

Lemma norm_ascii_line_witness :
  let s := u "  1 -  Bad   process (Major - Ops) " in
  forallb is_ascii s = true
  ∧ norm ucd_fragment s = u "1 - Bad process (Major - Ops)"
  ∧ norm ucd_fragment (norm ucd_fragment s) = norm ucd_fragment s.
Proof.
  intros s. split; [reflexivity|]. split; [reflexivity|].
  apply (norm_ascii_line ucd_fragment ucd_fragment s). reflexivity.
Defined.

(** ** [tidy] *)

Lemma sub_space_runs_true_head s c :
  head (sub_space_runs true s) = Some c → isspace c = false.
Proof.
  induction s as [|x r IH]; simpl; [done|].
  destruct (isspace x) eqn:E; [done|]. simpl. by intros [= <-].
Qed.

Lemma sub_space_runs_false_head x r c :
  isspace x = false → head (sub_space_runs false (x :: r)) = Some c → c = x.
Proof. intros E. simpl. rewrite E. simpl. by intros [= <-]. Qed.

Lemma sub_space_runs_no_adjacent s : ∀ b, no_adjacent isspace (sub_space_runs b s).
Proof.
  induction s as [|x r IH]; intros b; simpl; [done|].
  destruct (isspace x) eqn:Ex.
  - destruct b; [apply IH|].
    destruct r as [|d r']; [done|].
    destruct (isspace d) eqn:Ed.
    + split; [|apply IH].
      destruct (sub_space_runs true (d :: r')) as [|y ys] eqn:E; [done|].
      intros [_ Hy]. pose proof (sub_space_runs_true_head (d :: r') y) as H.
      rewrite E in H. specialize (H eq_refl). congruence.
    + split; [|apply IH].
      destruct (sub_space_runs false (d :: r')) as [|y ys] eqn:E; [done|].
      intros [_ Hy]. pose proof (sub_space_runs_false_head d r' y Ed) as H.
      rewrite E in H. specialize (H eq_refl). congruence.
  - split; [|apply IH]. destruct (sub_space_runs false r); [done|]. intros [? _]. congruence.
Qed.

Lemma sub_space_runs_id s : no_adjacent isspace s → sub_space_runs false s = s.
Proof.
  induction s as [|x r IH]; simpl; [done|]. intros [H1 H2]. rewrite (IH H2).
  destruct (isspace x) eqn:Ex; [|done].
  destruct r as [|d r']; [done|].
  destruct (isspace d) eqn:Ed; [|done]. by destruct H1.
Qed.

Lemma sub_space_runs_Forall (Q : N → Prop) s : ∀ b,
  Q SP → Forall Q s → Forall Q (sub_space_runs b s).
Proof.
  induction s as [|x r IH]; intros b HQ Hs; simpl; [done|].
  apply Forall_cons in Hs as [Hx Hr].
  destruct (isspace x).
  - destruct b; [by apply IH|]. destruct r as [|d r']; [by repeat constructor|].
    destruct (isspace d); constructor; try done; by apply IH.
  - constructor; [done | by apply IH].
Qed.

Lemma no_adjacent_app_r p a b : no_adjacent p (a ++ b) → no_adjacent p b.
Proof. induction a as [|c a IH]; simpl; [done|]. intros [_ H]. by apply IH. Qed.

Lemma no_adjacent_app_l p a b : no_adjacent p (a ++ b) → no_adjacent p a.
Proof.
  induction a as [|c a IH]; simpl; [done|]. intros [H1 H2]. split; [|by apply IH].
  destruct a; simpl in *; done.
Qed.

Lemma no_adjacent_infix p a t b : no_adjacent p (a ++ t ++ b) → no_adjacent p t.
Proof. intros H. by apply no_adjacent_app_r, no_adjacent_app_l in H. Qed.

Lemma tidy_unfold s :
  tidy s = strip (strip_by is_tidy_char (sub_space_runs false s)).
Proof. done. Qed.

(** A tidied text has no white space at either end and no two adjacent
    white-space characters; the empty text stays empty. *)
Theorem tidy_shape (s : list N) :
  trimmed isspace (tidy s) ∧ no_adjacent isspace (tidy s) ∧ tidy [] = [].
Proof.
  split; [apply strip_by_trimmed|]. split; [|done].
  rewrite tidy_unfold.
  destruct (strip_by_infix isspace (strip_by is_tidy_char (sub_space_runs false s)))
    as (a & b & Hab).
  destruct (strip_by_infix is_tidy_char (sub_space_runs false s)) as (a' & b' & Hab').
  apply (no_adjacent_infix _ a _ b). unfold strip. rewrite <- Hab.
  apply (no_adjacent_infix _ a' _ b'). rewrite <- Hab'.
  apply sub_space_runs_no_adjacent.
Qed.

Lemma trimmed_tidy_char_isspace (t : list N) :
  plain_spaced t → trimmed is_tidy_char t → trimmed isspace t.
Proof.
  intros Hp [H1 H2]. split.
  - intros c Hc. specialize (H1 c Hc). destruct (isspace c) eqn:E; [|done].
    assert (c ∈ t) as Hin by (destruct t; simplify_eq/=; left).
    rewrite (proj1 (Forall_forall _ _) Hp c Hin E) in H1. done.
  - intros c Hc. specialize (H2 c Hc). destruct (isspace c) eqn:E; [|done].
    assert (c ∈ t) as Hin by (by apply last_Some_elem_of).
    rewrite (proj1 (Forall_forall _ _) Hp c Hin E) in H2. done.
Qed.

(** [tidy] is idempotent on the texts whose only white space is the
    space: tidying the result again changes nothing. *)
Theorem tidy_idempotent_plain (s : list N) :
  plain_spaced s → tidy (tidy s) = tidy s.
Proof.
  intros Hp.
  set (t1 := strip_by is_tidy_char (sub_space_runs false s)).
  assert (plain_spaced t1) as Hp1.
  { destruct (strip_by_infix is_tidy_char (sub_space_runs false s)) as (a & b & Hab).
    apply (Forall_infix _ a _ b). fold t1 in Hab. rewrite <- Hab.
    by apply sub_space_runs_Forall. }
  assert (no_adjacent isspace t1) as Hna.
  { destruct (strip_by_infix is_tidy_char (sub_space_runs false s)) as (a & b & Hab).
    apply (no_adjacent_infix _ a _ b). fold t1 in Hab. rewrite <- Hab.
    apply sub_space_runs_no_adjacent. }
  assert (strip t1 = t1) as Hs.
  { apply strip_by_id, trimmed_tidy_char_isspace; [done | apply strip_by_trimmed]. }
  assert (tidy s = t1) as -> by (rewrite tidy_unfold; exact Hs).
  rewrite tidy_unfold, (sub_space_runs_id _ Hna).
  unfold t1 at 1. rewrite strip_by_idem. exact Hs.
Qed.

Lemma tidy_idempotent_plain_witness :
  let s := u " - Fix  the   intake (soon). " in
  plain_spaced s ∧ tidy s = u "Fix the intake (soon" ∧ tidy (tidy s) = tidy s.
Proof.
  intros s.
  assert (plain_spaced s) as H.
  { apply Forall_forall. intros c Hc Hs.
    apply list_elem_of_In, (proj1 (forallb_forall (λ c, implb (isspace c) (c =? SP)%N) s) eq_refl) in Hc.
    rewrite Hs in Hc. by apply N.eqb_eq. }
  split; [exact H|]. split; [reflexivity|]. exact (tidy_idempotent_plain s H).
Defined.

Lemma contains_false_lookup c (s : list N) : contains c s = false ↔ ∀ j, s !! j ≠ Some c.
Proof.
  rewrite contains_not_elem_of, list_elem_of_lookup. split.
  - intros H j Hj. apply H. by exists j.
  - intros H [j Hj]. by apply (H j).
Qed.

Lemma find_spec_Some c (s : list N) k :
  s !! k = Some c → (∀ j, j < k → s !! j ≠ Some c) → find c s 0 = Some k.
Proof.
  intros Hk Hlt. destruct (find c s 0) as [k'|] eqn:E.
  - destruct (find_Some _ _ _ _ E) as (_ & Hk' & Hlt').
    f_equal. destruct (Nat.lt_trichotomy k k') as [H|[H|H]]; [|done|].
    + exfalso. apply (Hlt' k); [lia | done].
    + exfalso. by apply (Hlt k').
  - exfalso. by apply (find_None _ _ _ k E); [lia|].
Qed.

Lemma finditer_skip m a : ∀ fuel pos,
  pos ≤ a → a - pos ≤ fuel → (∀ p, pos ≤ p < a → m p = None) →
  finditer m fuel pos = finditer m (fuel - (a - pos)) a.
Proof.
  induction fuel as [|f IH]; intros pos Ha Hf H.
  - assert (pos = a) as -> by lia. done.
  - destruct (decide (pos = a)) as [->|Hne].
    + by rewrite Nat.sub_diag.
    + simpl. rewrite (H pos) by lia.
      rewrite IH by (try lia; intros p' Hp'; apply H; lia). f_equal. lia.
Qed.

Lemma finditer_single m a b fuel :
  a < fuel → a < b →
  (∀ p, p < a → m p = None) → m a = Some b → (∀ p, b ≤ p → m p = None) →
  last (finditer m fuel 0) = Some (a, b).
Proof.
  intros Hf Hab H1 H2 H3.
  rewrite (finditer_skip m a) by (try lia; intros; apply H1; lia).
  rewrite Nat.sub_0_r. destruct (fuel - a) as [|f] eqn:E; [lia|]. simpl.
  rewrite H2. replace (b =? a) with false by (symmetry; apply Nat.eqb_neq; lia).
  by rewrite finditer_nil.
Qed.

Lemma finditer_empty m fuel : ∀ pos,
  finditer m fuel pos = [] → ∀ p, pos ≤ p < pos + fuel → m p = None.
Proof.
  induction fuel as [|f IH]; intros pos H p Hp; [lia|]. simpl in H.
  destruct (m pos) eqn:E; [done|].
  destruct (decide (p = pos)) as [->|Hne]; [done|]. apply (IH _ H). lia.
Qed.

Lemma finditer_last m : (∀ p e, m p = Some e → p < e) →
  ∀ fuel pos st en,
  last (finditer m fuel pos) = Some (st, en) →
  pos ≤ st ∧ m st = Some en ∧ ∀ p, en ≤ p < pos + fuel → m p = None.
Proof.
  intros Hm. induction fuel as [|f IH]; intros pos st en; simpl; [done|].
  destruct (m pos) as [e|] eqn:E.
  - pose proof (Hm _ _ E) as He.
    replace (e =? pos) with false by (symmetry; apply Nat.eqb_neq; lia).
    destruct (finditer m f e) as [|x xs] eqn:Ef.
    + simpl. intros [= <- <-]. split; [done|]. split; [done|].
      intros p Hp. apply (finditer_empty _ _ _ Ef). lia.
    + rewrite last_cons_cons. rewrite <- Ef. intros H.
      destruct (IH _ _ _ H) as (H1 & H2 & H3). split; [lia|]. split; [done|].
      intros p Hp. apply H3. lia.
  - intros H. destruct (IH _ _ _ H) as (H1 & H2 & H3). split; [lia|]. split; [done|].
    intros p Hp. apply H3. lia.
Qed.

Lemma paren_at_Some s pos e :
  paren_at s pos = Some e →
  s !! pos = Some LPAREN ∧ pos + 2 ≤ e ≤ length s ∧ s !! (e - 1) = Some RPAREN
  ∧ ∀ j, pos < j < e - 1 → s !! j ≠ Some RPAREN.
Proof.
  unfold paren_at. destruct (drop pos s) as [|c r] eqn:E; [done|].
  destruct (N.eqb_spec c LPAREN) as [->|]; [|done].
  destruct (find RPAREN r 0) as [k|] eqn:F; [|done]. intros [= <-].
  destruct (find_Some _ _ _ _ F) as (_ & Hk & Hlt).
  assert (s !! pos = Some LPAREN) as H0.
  { rewrite <- (Nat.add_0_r pos), <- lookup_drop, E. done. }
  assert (∀ j, s !! (pos + S j) = r !! j) as Hr.
  { intros j. rewrite <- lookup_drop, E. done. }
  split; [done|]. split.
  - split; [lia|]. apply lookup_lt_Some in Hk.
    assert (length s = pos + S (length r)); [|lia].
    rewrite <- (take_drop pos s) at 1. rewrite length_app, E, length_take. simpl.
    apply lookup_lt_Some in H0. lia.
  - split.
    + replace (pos + k + 2 - 1) with (pos + S k) by lia. by rewrite Hr.
    + intros j Hj. replace j with (pos + S (j - pos - 1)) by lia. rewrite Hr.
      apply Hlt. lia.
Qed.

Lemma paren_at_beyond s pos : length s ≤ pos → paren_at s pos = None.
Proof. intros H. unfold paren_at. by rewrite drop_ge. Qed.

Lemma paren_at_intro s pos e :
  s !! pos = Some LPAREN → pos < e → s !! e = Some RPAREN →
  (∀ j, pos < j < e → s !! j ≠ Some RPAREN) →
  paren_at s pos = Some (e + 1).
Proof.
  intros H0 He H1 H2. unfold paren_at.
  destruct (drop pos s) as [|c r] eqn:E.
  { apply lookup_lt_Some in H0. apply (f_equal length) in E. rewrite length_drop in E.
    simpl in E. lia. }
  assert (∀ j, s !! (pos + S j) = r !! j) as Hr.
  { intros j. rewrite <- lookup_drop, E. done. }
  assert (c = LPAREN) as ->.
  { rewrite <- (Nat.add_0_r pos), <- lookup_drop, E in H0. by injection H0. }
  rewrite N.eqb_refl.
  rewrite (find_spec_Some RPAREN r (e - pos - 1)).
  - f_equal. lia.
  - rewrite <- Hr. by replace (pos + S (e - pos - 1)) with e by lia.
  - intros j Hj. rewrite <- Hr. apply H2. lia.
Qed.

(** The group [extract_ce_anywhere] works on is the last one of the scan:
    it opens with a parenthesis, closes with the first closing parenthesis
    after it, and no group starts at or after its end; without a match there
    is no group at any position. *)
Theorem last_parenthesized_group (s : list N) :
  match last_match (paren_at s) s with
  | Some (st, en) =>
      s !! st = Some LPAREN ∧ s !! (en - 1) = Some RPAREN ∧ st + 2 ≤ en ≤ length s
      ∧ (∀ j, st < j < en - 1 → s !! j ≠ Some RPAREN)
      ∧ ∀ p, en ≤ p → paren_at s p = None
  | None => ∀ p, paren_at s p = None
  end.
Proof.
  unfold last_match.
  destruct (last (finditer (paren_at s) (S (length s)) 0)) as [[st en]|] eqn:E.
  - apply finditer_last in E as (_ & Hm & Hn).
    2: { intros p e H. apply paren_at_Some in H. lia. }
    destruct (paren_at_Some _ _ _ Hm) as (H1 & H2 & H3 & H4).
    repeat split; try done; try lia.
    intros p Hp. destruct (decide (p < S (length s))); [apply Hn; lia|].
    apply paren_at_beyond. lia.
  - apply last_None in E. intros p.
    destruct (decide (p < S (length s))); [|apply paren_at_beyond; lia].
    apply (finditer_empty _ _ _ E). lia.
Qed.

(** ** The annotation round trip *)

Lemma paren_at_not_open s p : s !! p ≠ Some LPAREN → paren_at s p = None.
Proof.
  intros H. unfold paren_at. destruct (drop p s) as [|c r] eqn:E; [done|].
  destruct (N.eqb_spec c LPAREN) as [->|]; [|done]. exfalso. apply H.
  rewrite <- (Nat.add_0_r p), <- lookup_drop, E. done.
Qed.

Lemma last_match_paren_suffix (t mid : list N) :
  contains LPAREN t = false → contains RPAREN mid = false →
  let s := t ++ LPAREN :: mid ++ [RPAREN] in
  last_match (paren_at s) s = Some (length t, length s).
Proof.
  intros Ht Hmid s. rewrite contains_false_lookup in Ht, Hmid.
  assert (length s = length t + S (length mid) + 1) as Hlen.
  { unfold s. rewrite length_app. simpl. rewrite length_app. simpl. lia. }
  assert (s !! length t = Some LPAREN) as H0 by (unfold s; by rewrite list_lookup_middle).
  assert (∀ j, j < length mid → s !! (length t + S j) = mid !! j) as Hm.
  { intros j Hj. unfold s. rewrite lookup_app_r by lia.
    replace (length t + S j - length t) with (S j) by lia. simpl. by rewrite lookup_app_l. }
  assert (s !! (length t + S (length mid)) = Some RPAREN) as H1.
  { unfold s. rewrite lookup_app_r by lia.
    replace (length t + S (length mid) - length t) with (S (length mid)) by lia. simpl.
    by rewrite list_lookup_middle. }
  unfold last_match. apply finditer_single.
  - lia.
  - lia.
  - intros p Hp. apply paren_at_not_open. unfold s. rewrite lookup_app_l by done. apply Ht.
  - rewrite Hlen. apply paren_at_intro; [done | lia | done |].
    intros j Hj. replace j with (length t + S (j - length t - 1)) by lia.
    rewrite Hm by lia. apply Hmid.
  - intros p Hp. apply paren_at_beyond. lia.
Qed.

Lemma strip_by_length p s : length (strip_by p s) ≤ length s.
Proof. destruct (strip_by_infix p s) as (a & b & H). rewrite H at 2. rewrite !length_app. lia. Qed.

Lemma strip_by_same_length p s : length (strip_by p s) = length s → strip_by p s = s.
Proof.
  destruct (strip_by_infix p s) as (a & b & H). intros Hl.
  rewrite H in Hl at 2. rewrite !length_app in Hl.
  destruct a; [|simpl in Hl; lia]. destruct b; [|simpl in Hl; lia].
  rewrite H at 2. by rewrite app_nil_r.
Qed.

(** A text that [tidy] leaves as it is. *)
Lemma tidy_fixed (x : list N) :
  tidy x = x →
  trimmed is_tidy_char x ∧ trimmed isspace x ∧ no_adjacent isspace x.
Proof.
  intros H. destruct (tidy_shape x) as (Ht & Hn & _). rewrite H in Ht, Hn.
  split; [|done].
  rewrite tidy_unfold, (sub_space_runs_id _ Hn) in H.
  assert (strip_by is_tidy_char x = x) as <-; [|apply strip_by_trimmed].
  apply strip_by_same_length.
  pose proof (strip_by_length isspace (strip_by is_tidy_char x)) as H1.
  pose proof (strip_by_length is_tidy_char x) as H2.
  unfold strip in H. rewrite H in H1. lia.
Qed.

Lemma lstrip_by_app_all p a b : Forall (λ c, p c = true) a → lstrip_by p (a ++ b) = lstrip_by p b.
Proof. induction 1 as [|x a Hx Ha IH]; simpl; [done|]. by rewrite Hx. Qed.

Lemma rstrip_by_all p b : Forall (λ c, p c = true) b → rstrip_by p b = [].
Proof. induction 1 as [|x b Hx Hb IH]; simpl; [done|]. by rewrite IH, Hx. Qed.

Lemma rstrip_by_app_all p a b : Forall (λ c, p c = true) b → rstrip_by p (a ++ b) = rstrip_by p a.
Proof.
  intros Hb. induction a as [|x a IH]; simpl; [by apply rstrip_by_all | by rewrite IH].
Qed.

Lemma rstrip_by_app_keep p a b : rstrip_by p b ≠ [] → rstrip_by p (a ++ b) = a ++ rstrip_by p b.
Proof.
  intros Hb. induction a as [|x a IH]; simpl; [done|]. rewrite IH.
  destruct (a ++ rstrip_by p b) eqn:E; [|done]. by apply app_eq_nil in E as [_ ?].
Qed.

Lemma no_adjacent_app p a b :
  no_adjacent p a → no_adjacent p b →
  (∀ c d, last a = Some c → head b = Some d → ¬ (p c = true ∧ p d = true)) →
  no_adjacent p (a ++ b).
Proof.
  intros Ha Hb H. induction a as [|x a IH]; simpl; [done|].
  destruct Ha as [H1 H2]. split.
  - destruct a as [|y a']; simpl; [|done].
    destruct b as [|d b']; [done|]. by apply H.
  - apply IH; [done|]. intros c d Hc Hd. apply H; [|done].
    destruct a; [done|]. by rewrite last_cons_cons.
Qed.

Lemma trimmed_head p x c r : trimmed p x → x = c :: r → p c = false.
Proof. intros [H _] ->. by apply H. Qed.

Lemma tidy_snoc_space (x : list N) : tidy x = x → tidy (x ++ [SP]) = x.
Proof.
  intros H. destruct (tidy_fixed x H) as (Ht & Hw & Hn).
  destruct x as [|c r]; [done|].
  rewrite tidy_unfold, sub_space_runs_id.
  - assert (strip_by is_tidy_char ((c :: r) ++ [SP]) = c :: r) as ->; [|by apply strip_by_id].
    unfold strip_by. rewrite lstrip_by_id' by (simpl; intros ? [= <-]; by apply (proj1 Ht)).
    rewrite (rstrip_by_app_all _ _ [SP]) by (by repeat constructor).
    apply rstrip_by_id, (proj2 Ht).
  - apply no_adjacent_app; [done|done|]. intros a d Ha _ [Hp _].
    destruct Hw as [_ Hw]. rewrite (Hw a Ha) in Hp. done.
Qed.

Lemma tidy_cons_space (x : list N) : tidy x = x → tidy (SP :: x) = x.
Proof.
  intros H. destruct (tidy_fixed x H) as (Ht & Hw & Hn).
  destruct x as [|c r]; [done|].
  rewrite tidy_unfold, sub_space_runs_id.
  - assert (strip_by is_tidy_char (SP :: c :: r) = c :: r) as ->; [|by apply strip_by_id].
    unfold strip_by. change (SP :: c :: r) with ([SP] ++ c :: r).
    rewrite lstrip_by_app_all by (by repeat constructor).
    rewrite lstrip_by_id' by (simpl; intros ? [= <-]; by apply (proj1 Ht)).
    apply rstrip_by_id, (proj2 Ht).
  - split; [|done]. intros [_ Hp]. destruct Hw as [Hw _]. rewrite (Hw c eq_refl) in Hp. done.
Qed.

Lemma strip_padded (t : list N) : trimmed isspace t → strip (t ++ [SP; SP]) = t.
Proof.
  intros Ht. unfold strip, strip_by. destruct t as [|c r]; [done|].
  rewrite lstrip_by_id' by (simpl; intros ? [= <-]; by apply (proj1 Ht)).
  rewrite (rstrip_by_app_all _ _ [SP; SP]) by (by repeat constructor).
  apply rstrip_by_id, Ht.
Qed.

Lemma split1_app h (a b : list N) :
  Forall (λ c, c ≠ h) a → split1 h (a ++ h :: b) = (a, Some b).
Proof.
  induction 1 as [|x a Hx Ha IH]; simpl; [by rewrite N.eqb_refl|].
  destruct (N.eqb_spec x h); [done|]. by rewrite IH.
Qed.

Lemma DASH_RE_sub_app a b : DASH_RE_sub (a ++ b) = DASH_RE_sub a ++ DASH_RE_sub b.
Proof. apply map_app. Qed.

Lemma DASH_RE_sub_no_dash a : Forall (λ c, c ∉ DASH_CHARS) a → DASH_RE_sub a = a.
Proof.
  intros H. apply DASH_RE_sub_id. eapply Forall_impl; [exact H|].
  intros c Hc Hin%contains_elem_of. done.
Qed.

Lemma slice_group (t mid : list N) :
  let s := t ++ LPAREN :: mid ++ [RPAREN] in
  slice s (S (length t)) (length s - 1) = mid ∧ take (length t) s = t ∧ drop (length s) s = [].
Proof.
  intros s. split; [|split; [apply take_app_length | by apply drop_all]].
  unfold slice, s. rewrite drop_S_app_length.
  replace (length (t ++ LPAREN :: mid ++ [RPAREN]) - 1 - S (length t)) with (length mid).
  - apply take_app_length.
  - rewrite length_app. simpl. rewrite length_app. simpl. lia.
Qed.

Lemma hyphen_in_dash_chars : HYPHEN ∈ DASH_CHARS.
Proof. apply contains_elem_of. reflexivity. Qed.

Lemma rstrip_nonempty_trimmed p (e : list N) :
  e ≠ [] → trimmed p e → rstrip_by p e = e ∧ rstrip_by p e ≠ [].
Proof. intros Hne [_ H]. rewrite rstrip_by_id by done. done. Qed.

(** The fields of the group ["(c - e)"]. *)
Lemma pair_fields (c e : list N) :
  tidy c = c → tidy e = e →
  Forall (λ x, x ∉ DASH_CHARS) c → DASH_RE_sub e = e →
  c ≠ [] ∨ e ≠ [] →
  let inside := strip (DASH_RE_sub (c ++ [SP; HYPHEN; SP] ++ e)) in
  let '(p0, p1) := split1 HYPHEN inside in
  (tidy p0, match p1 with Some p => tidy p | None => [] end) = (c, e).
Proof.
  intros Hc He Hdc Hde Hne.
  destruct (tidy_fixed c Hc) as (_ & Hwc & _). destruct (tidy_fixed e He) as (_ & Hwe & _).
  assert (Forall (λ x, x ≠ HYPHEN) c) as Hh.
  { eapply Forall_impl; [exact Hdc|]. intros x Hx ->. apply Hx, hyphen_in_dash_chars. }
  cbv zeta. rewrite !DASH_RE_sub_app, (DASH_RE_sub_no_dash c Hdc), Hde.
  change (DASH_RE_sub [SP; HYPHEN; SP]) with [SP; HYPHEN; SP].
  assert (strip (c ++ [SP; HYPHEN; SP] ++ e)
          = (if truthy c then c ++ [SP] else []) ++ HYPHEN :: (if truthy e then SP :: e else []))
    as ->.
  { unfold strip, strip_by. destruct c as [|x c'], e as [|y e']; simpl truthy; cbv iota.
    - by destruct Hne.
    - change ([] ++ [SP; HYPHEN; SP] ++ y :: e') with ([SP] ++ HYPHEN :: SP :: y :: e').
      rewrite lstrip_by_app_all by (by repeat constructor).
      rewrite lstrip_by_id' by (simpl; by intros ? [= <-]).
      change (HYPHEN :: SP :: y :: e') with ([HYPHEN; SP] ++ y :: e').
      rewrite rstrip_by_app_keep; destruct (rstrip_nonempty_trimmed isspace (y :: e')) as [-> ?];
        done.
    - rewrite lstrip_by_id' by (simpl; intros ? [= <-]; by apply (proj1 Hwc)).
      rewrite app_nil_r.
      change ((x :: c') ++ [SP; HYPHEN; SP]) with ((x :: c') ++ [SP; HYPHEN] ++ [SP]).
      rewrite !app_assoc, (rstrip_by_app_all _ _ [SP]) by (by repeat constructor).
      rewrite <- app_assoc. rewrite rstrip_by_app_keep by done.
      change (rstrip_by isspace ([SP; HYPHEN])) with [SP; HYPHEN]. done.
    - rewrite lstrip_by_id' by (simpl; intros ? [= <-]; by apply (proj1 Hwc)).
      change ((x :: c') ++ [SP; HYPHEN; SP] ++ y :: e')
        with ((x :: c') ++ [SP; HYPHEN; SP] ++ (y :: e')).
      rewrite !app_assoc.
      rewrite rstrip_by_app_keep; destruct (rstrip_nonempty_trimmed isspace (y :: e')) as [-> ?];
        try done.
      by rewrite <- !app_assoc. }
  rewrite split1_app.
  2: { destruct (truthy c); [|done]. apply Forall_app. split; [done | by repeat constructor]. }
  f_equal.
  - destruct c as [|x c']; [done|]. simpl truthy. cbv iota. by apply tidy_snoc_space.
  - destruct e as [|y e']; [done|]. simpl truthy. cbv iota. by apply tidy_cons_space.
Qed.

(** The annotation round trip.  For a tidy text [t] without an opening
    parenthesis, a tidy classification [c] without a dash and a tidy entity
    [e] without a Unicode dash, neither holding a closing parenthesis nor
    both empty, the extractor takes ["t (c - e)"] apart again into [t], [c]
    and [e]. *)
Theorem annotation_round_trip ucd (t c e : list N) :
  tidy t = t → tidy c = c → tidy e = e →
  contains LPAREN t = false →
  contains RPAREN c = false → contains RPAREN e = false →
  Forall (λ x, x ∉ DASH_CHARS) c → DASH_RE_sub e = e →
  c ≠ [] ∨ e ≠ [] →
  extract_ce_anywhere ucd (annotated t c e) = (t, c, e).
Proof.
  intros Ht Hc He Hpt Hpc Hpe Hdc Hde Hne.
  set (mid := c ++ [SP; HYPHEN; SP] ++ e).
  assert (annotated t c e = (t ++ [SP]) ++ LPAREN :: mid ++ [RPAREN]) as ->.
  { unfold annotated, mid. change (u " (") with [SP; LPAREN].
    change (u " - ") with [SP; HYPHEN; SP]. change (u ")") with [RPAREN].
    by rewrite <- !app_assoc. }
  assert (contains RPAREN mid = false) as Hmid.
  { unfold mid. rewrite !contains_app, Hpc, Hpe. done. }
  assert (contains LPAREN (t ++ [SP]) = false) as Hpt'.
  { rewrite contains_app, Hpt. done. }
  unfold extract_ce_anywhere.
  rewrite (last_match_paren_suffix _ _ Hpt' Hmid).
  destruct (slice_group (t ++ [SP]) mid) as (Hs & Htake & Hdrop).
  unfold annotation_fields. rewrite Hs, Htake, Hdrop.
  pose proof (pair_fields c e Hc He Hdc Hde Hne) as Hf. fold mid in Hf. cbv zeta in Hf.
  destruct (split1 HYPHEN (strip (DASH_RE_sub mid))) as [p0 p1].
  injection Hf as -> ->.
  assert (truthy c || truthy e = true) as ->.
  { destruct Hne, c, e; done. }
  f_equal. f_equal.
  rewrite <- app_assoc. change ([SP] ++ [SP] ++ []) with [SP; SP].
  destruct (tidy_fixed t Ht) as (_ & Hw & _).
  by rewrite (strip_padded t Hw).
Qed.

Lemma annotation_round_trip_witness :
  let t := u "Improve widget handling" in
  let c := u "Major" in
  let e := u "Logistics - North" in
  annotated t c e = u "Improve widget handling (Major - Logistics - North)"
  ∧ extract_ce_anywhere ucd_fragment (annotated t c e) = (t, c, e).
Proof.
  intros t c e. split; [reflexivity|].
  apply (annotation_round_trip ucd_fragment t c e); try reflexivity.
  - apply Forall_forall. intros x Hx Hd.
    apply list_elem_of_In, (proj1 (forallb_forall (λ x, negb (contains x DASH_CHARS)) c) eq_refl) in Hx.
    apply contains_elem_of in Hd. by rewrite Hd in Hx.
  - left. discriminate.
Defined.

(** ** The lines a cross-line annotation consumes *)

Lemma gather_spec ls : ∀ j0,
  let '(b, j1) := gather ls j0 in
  j0 ≤ j1 ≤ j0 + length ls
  ∧ b = take (S (j1 - j0)) ls
  ∧ (∀ i line, i < j1 - j0 → ls !! i = Some line → contains RPAREN line = false)
  ∧ (j1 < j0 + length ls → ∃ line, ls !! (j1 - j0) = Some line ∧ contains RPAREN line = true).
Proof.
  induction ls as [|l r IH]; intros j0; simpl.
  - repeat split; try lia; try done.
  - destruct (contains RPAREN l) eqn:E.
    + rewrite Nat.sub_diag. simpl. rewrite take_0.
      repeat split; try lia; try done. intros _. by exists l.
    + specialize (IH (S j0)). destruct (gather r (S j0)) as [b j1].
      destruct IH as (H1 & H2 & H3 & H4).
      replace (j1 - j0) with (S (j1 - S j0)) by lia.
      repeat split; try lia.
      * simpl. by rewrite H2.
      * intros [|i] line Hi; simpl; [by intros [= <-]|]. apply H3. lia.
      * intros Hj. simpl. apply H4. lia.
Qed.

Section Index.

Variable ucd : UnicodeData.

Lemma across_lines_index_eq line_list idx first_line :
  (extract_ce_across_lines ucd line_list idx first_line).2 =
    if contains LPAREN first_line && negb (contains RPAREN first_line)
    then Z.min (Z.of_nat (gather (drop (S idx) line_list) (S idx)).2)
               (Z.of_nat (length line_list) - 1)
    else Z.of_nat idx.
Proof.
  unfold extract_ce_across_lines.
  destruct (contains LPAREN first_line && negb (contains RPAREN first_line)).
  - destruct (gather (drop (S idx) line_list) (S idx)) as [more j1].
    destruct (last_match _ _) as [[st en]|]; [destruct (annotation_fields _ _ _)|]; done.
  - by destruct (extract_ce_anywhere ucd first_line) as [[? ?] ?].
Qed.

(** The index [extract_ce_across_lines] reports back lies in the line list
    and not before [idx]; it is [idx] unless the first line opens a
    parenthesis it does not close, and then no line strictly between [idx]
    and it holds a closing parenthesis, and the line at it does unless it is
    the last line. *)
Theorem across_lines_index (line_list : list (list N)) (idx : nat) (first_line : list N) :
  idx < length line_list →
  let j := (extract_ce_across_lines ucd line_list idx first_line).2 in
  (Z.of_nat idx <= j <= Z.of_nat (length line_list) - 1)%Z
  ∧ (contains LPAREN first_line && negb (contains RPAREN first_line) = false → j = Z.of_nat idx)
  ∧ (∀ k line, idx < k → (Z.of_nat k < j)%Z → line_list !! k = Some line →
       contains RPAREN line = false)
  ∧ ((Z.of_nat idx < j < Z.of_nat (length line_list) - 1)%Z →
       ∃ line, line_list !! Z.to_nat j = Some line ∧ contains RPAREN line = true).
Proof.
  intros Hi j. unfold j. rewrite across_lines_index_eq.
  destruct (contains LPAREN first_line && negb (contains RPAREN first_line)) eqn:E.
  - pose proof (gather_spec (drop (S idx) line_list) (S idx)) as Hg.
    destruct (gather (drop (S idx) line_list) (S idx)) as [more j1].
    destruct Hg as (H1 & _ & H3 & H4). rewrite length_drop in H1, H4. simpl.
    split; [lia|]. split; [done|]. split.
    + intros k line Hk Hkj Hl.
      apply (H3 (k - S idx) line); [lia|]. rewrite lookup_drop.
      by replace (S idx + (k - S idx)) with k by lia.
    + intros Hj. destruct H4 as (line & Hl & Hc); [lia|].
      exists line. split; [|done]. rewrite lookup_drop in Hl.
      replace (Z.to_nat (Z.min (Z.of_nat j1) (Z.of_nat (length line_list) - 1))) with j1 by lia.
      by replace (S idx + (j1 - S idx)) with j1 in Hl by lia.
  - split; [lia|]. split; [done|]. split; intros; lia.
Qed.

End Index.

Lemma across_lines_index_witness :
  let line_list := [u "1 - Late reports ("; u "see the"; u "audit) and more"; u "2 - Next"] in
  let j := (extract_ce_across_lines ucd_fragment line_list 0 (u "Late reports (")).2 in
  0 < length line_list ∧ (0 <= j <= 3)%Z ∧ j = 2%Z.
Proof.
  intros line_list j. split; [simpl; lia|]. split; [|reflexivity].
  apply (across_lines_index ucd_fragment line_list 0 (u "Late reports (")). simpl. lia.
Defined.

(** ** Invariants of the parser state *)

Lemma flush_reco_fields st :
  ws (flush_reco st) = ws st ∧ row (flush_reco st) = row st
  ∧ in_afi (flush_reco st) = in_afi st ∧ in_reco (flush_reco st) = in_reco st
  ∧ afis (flush_reco st) = afis st ∧ last_afi_idx (flush_reco st) = last_afi_idx st
  ∧ process_label (flush_reco st) = process_label st
  ∧ cur_rec_num (flush_reco st) = None ∧ cur_rec_parts (flush_reco st) = [].
Proof. done. Qed.

Lemma flush_reco_consistent st : consistent st → consistent (flush_reco st).
Proof.
  intros [H1 H2 H3 H4 H5]. split; try done.
  intros k v. unfold flush_reco. simpl.
  destruct (cur_rec_num st) as [n|]; [|apply H3].
  destruct (join BAR (List.filter truthy (cur_rec_parts st))) as [|x txt] eqn:E; [apply H3|].
  simpl. destruct (decide (n = k)) as [->|Hne].
  - rewrite lookup_insert_eq. intros [= <-]. intros Hnil.
    apply app_eq_nil in Hnil as [_ Hnil]. by apply app_eq_nil in Hnil as [_ ?].
  - rewrite lookup_insert_ne by done. apply H3.
Qed.

Section Invariants.

Variable ucd : UnicodeData.
Variable cols : columns.
Variable src_file : list N.

Lemma flush_block_fields st :
  in_afi (flush_block ucd cols src_file st) = in_afi st
  ∧ in_reco (flush_block ucd cols src_file st) = in_reco st
  ∧ recs (flush_block ucd cols src_file st) = recs st
  ∧ cur_rec_num (flush_block ucd cols src_file st) = cur_rec_num st
  ∧ cur_rec_parts (flush_block ucd cols src_file st) = cur_rec_parts st
  ∧ last_afi_idx (flush_block ucd cols src_file st) = last_afi_idx st
  ∧ process_label (flush_block ucd cols src_file st) = process_label st.
Proof.
  unfold flush_block.
  destruct (negb (bool_decide (afis st = [])) || negb (bool_decide (recs st = ∅))); [|done].
  by destruct (write_items _ _ _ _ _ _ _ _).
Qed.

Lemma flush_block_consistent st : consistent st → consistent (flush_block ucd cols src_file st).
Proof.
  intros [H1 H2 H3 H4 H5].
  destruct (flush_block_fields st) as (E1 & E2 & E3 & E4 & E5 & E6 & E7).
  pose proof (flush_block_afis ucd cols src_file st) as Ea.
  pose proof (assign_from_length (afis st) 1) as El. fold (assign_fallback (afis st)) in El.
  split.
  - by rewrite E1, E2.
  - rewrite E6, Ea, El. apply H2.
  - rewrite E3. apply H3.
  - by rewrite E4, E5.
  - rewrite Ea. eapply Forall_impl; [apply assign_from_num|].
    intros a Ha Hn. congruence.
Qed.

Lemma annotate_unnumbered c e a :
  (num a = None → cls a ≠ [] ∨ ent a ≠ []) →
  num (annotate c e a) = None → cls (annotate c e a) ≠ [] ∨ ent (annotate c e a) ≠ [].
Proof.
  intros H Hn. destruct (H Hn) as [Hc|He]; [left|right]; simpl.
  - by destruct (cls a).
  - by destruct (ent a).
Qed.

Lemma step_consistent lines i line st :
  consistent st → consistent (step ucd cols src_file lines i line st).1.
Proof.
  intros Hst. unfold step.
  destruct (is_some (RE_PROCESS line) || is_some (RE_PROC_SIMPLE ucd line)).
  { pose proof (flush_block_consistent _ (flush_reco_consistent _ Hst)) as [H1 H2 H3 H4 H5].
    split; simpl; done. }
  destruct (RE_AFI_HDR line).
  { destruct (flush_reco_consistent _ Hst) as [H1 H2 H3 H4 H5]. by split. }
  destruct (RE_RECO_HDR line).
  { destruct (flush_reco_consistent _ Hst) as [H1 H2 H3 H4 H5]. by split. }
  destruct (in_afi st) eqn:Ea.
  - destruct (fullmatch_paren line).
    + destruct (extract_ce_anywhere ucd line) as [[? c] e].
      destruct (last_afi_idx st) as [k|] eqn:Ek; [|exact Hst].
      destruct (truthy c || truthy e); [|exact Hst].
      destruct Hst as [H1 H2 H3 H4 H5]. split; simpl; try done.
      * intros k' [= <-]. rewrite length_alter. by apply H2.
      * apply Forall_forall. intros a Ha.
        apply list_elem_of_lookup in Ha as [j Hj].
        rewrite Forall_forall in H5.
        destruct (decide (j = k)) as [->|Hne].
        -- rewrite list_lookup_alter_eq in Hj.
           destruct (afis st !! k) as [b|] eqn:Eb; simplify_eq/=.
           apply annotate_unnumbered, H5. by eapply list_elem_of_lookup_2.
        -- rewrite list_lookup_alter_ne in Hj by done.
           apply H5. by eapply list_elem_of_lookup_2.
    + destruct (RE_NUM_ITEM ucd line) as [[g1 body]|].
      * destruct (extract_ce_across_lines ucd lines i body) as [[[? ?] ?] j].
        destruct Hst as [H1 H2 H3 H4 H5]. split; simpl; try done.
        -- intros k [= <-]. rewrite length_app. simpl. lia.
        -- apply Forall_app. split; [done|]. by apply Forall_singleton.
      * destruct (contains LPAREN line); [|exact Hst].
        destruct (extract_ce_across_lines ucd lines i line) as [[[? c] e] j].
        destruct (truthy c || truthy e) eqn:E; [|exact Hst].
        destruct Hst as [H1 H2 H3 H4 H5]. split; simpl; try done.
        -- intros k [= <-]. rewrite length_app. simpl. lia.
        -- apply Forall_app. split; [done|]. apply Forall_singleton. simpl. intros _.
           destruct c; [right; by destruct e | by left].
  - destruct (in_reco st) eqn:Er; [|exact Hst].
    destruct (RE_NUM_ITEM ucd line) as [[g1 g2]|].
    + destruct (flush_reco_consistent st Hst) as [G1 G2 G3 G4 G5]. by split.
    + destruct Hst as [H1 H2 H3 H4 H5]. by split.
Qed.

Lemma run_consistent lines : ∀ fuel i st,
  consistent st → consistent (run ucd cols src_file fuel lines i st).
Proof.
  induction fuel as [|f IH]; intros i st Hst; simpl; [done|].
  destruct (lines !! i) as [line|]; [|done].
  pose proof (step_consistent lines i line st Hst) as Hs.
  destruct (step ucd cols src_file lines i line st) as [st' i']. by apply IH.
Qed.

Lemma initial_consistent sheet r : consistent (initial sheet r).
Proof. split; simpl; done. Qed.

(** From a consistent state, and so from the initial one, every state of
    the loop and the final state of [process_file] are consistent: the two
    sections are never open together, the last-item pointer stays inside the
    item list, no accumulator entry is empty, and every item without a
    number has a classification or an entity. *)
Theorem parser_state_consistent (lines : list (list N)) (fuel i : nat) (st : state) :
  consistent st →
  consistent (run ucd cols src_file fuel lines i st)
  ∧ consistent (flush_block ucd cols src_file (flush_reco (run ucd cols src_file fuel lines i st)))
  ∧ ∀ sheet r, consistent (process_lines ucd cols src_file lines sheet r).
Proof.
  intros Hst. split; [by apply run_consistent|]. split.
  - by apply flush_block_consistent, flush_reco_consistent, run_consistent.
  - intros sheet r. unfold process_lines.
    apply flush_block_consistent, flush_reco_consistent, run_consistent, initial_consistent.
Qed.

End Invariants.

Lemma parser_state_consistent_witness :
  consistent (initial ∅ 2)
  ∧ consistent (run ucd_fragment default_columns (u "a.docx") 5 INTAKE_DOC 0 (initial ∅ 2)).
Proof.
  split; [exact (initial_consistent ∅ 2)|].
  exact (proj1 (parser_state_consistent ucd_fragment default_columns (u "a.docx") INTAKE_DOC 5 0
                  (initial ∅ 2) (initial_consistent ∅ 2))).
Defined.

(** ** The rows a file adds to the sheet *)

Ltac split_extends := unfold sheet_extends; split; [|split; [|split]].

Lemma sheet_extends_refl cols w r : sheet_extends cols w r w r.
Proof. split_extends; [lia | done | done | intros; lia]. Qed.

Lemma sheet_extends_trans cols w0 r0 w1 r1 w2 r2 :
  sheet_extends cols w0 r0 w1 r1 → sheet_extends cols w1 r1 w2 r2 →
  sheet_extends cols w0 r0 w2 r2.
Proof.
  intros (L1 & O1 & C1 & F1) (L2 & O2 & C2 & F2). split_extends.
  - lia.
  - intros x c Hx. rewrite O2, O1; [done | lia | lia].
  - intros x c Hc. by rewrite C2, C1.
  - intros x c Hx Hc. destruct (decide (x < r1)).
    + rewrite O2 by lia. apply F1; [lia | done].
    + apply F2; [lia | done].
Qed.

Section Rows.

Variable ucd : UnicodeData.
Variable cols : columns.
Variable src_file : list N.

Lemma write_row_extends w r afi_text c e reco label :
  sheet_extends cols w r (write_row ucd cols src_file w r afi_text c e reco label) (S r).
Proof.
  split_extends.
  - lia.
  - intros x k Hx. apply write_row_other. lia.
  - intros x k Hk. unfold write_row, column_list in *.
    destruct (extract_ce_anywhere ucd afi_text) as [[clean c2] e2].
    rewrite !not_elem_of_cons in Hk. destruct Hk as (H1 & H2 & H3 & H4 & H5 & H6 & _).
    rewrite !lookup_insert_ne; [done | congruence ..].
  - intros x k Hx Hk. assert (x = r) as -> by lia.
    unfold write_row, column_list in *.
    destruct (extract_ce_anywhere ucd afi_text) as [[clean c2] e2].
    rewrite !lookup_insert_is_Some'. rewrite !elem_of_cons in Hk.
    destruct Hk as [->|[->|[->|[->|[->|[->|Hk]]]]]]; [auto 10 .. | by apply elem_of_nil in Hk].
Qed.

Lemma write_items_extends items : ∀ w r recs label,
  sheet_extends cols w r
    (write_items ucd cols src_file w r recs label items).1
    (write_items ucd cols src_file w r recs label items).2.
Proof.
  induction items as [|a l IH]; intros w r recs label; simpl.
  - apply sheet_extends_refl.
  - eapply sheet_extends_trans; [apply write_row_extends | apply IH].
Qed.

Lemma flush_reco_sheet st : ws (flush_reco st) = ws st ∧ row (flush_reco st) = row st.
Proof. done. Qed.

Lemma flush_block_extends st :
  sheet_extends cols (ws st) (row st)
    (ws (flush_block ucd cols src_file st)) (row (flush_block ucd cols src_file st)).
Proof.
  unfold flush_block.
  destruct (negb (bool_decide (afis st = [])) || negb (bool_decide (recs st = ∅))).
  - pose proof (write_items_extends (sorted (assign_fallback (afis st))) (ws st) (row st)
                  (recs st) (process_label st)) as H.
    by destruct (write_items _ _ _ _ _ _ _ _).
  - apply sheet_extends_refl.
Qed.

Lemma step_extends lines i line st :
  sheet_extends cols (ws st) (row st)
    (ws (step ucd cols src_file lines i line st).1)
    (row (step ucd cols src_file lines i line st).1).
Proof.
  unfold step.
  destruct (is_some (RE_PROCESS line) || is_some (RE_PROC_SIMPLE ucd line)).
  { simpl. apply (flush_block_extends (flush_reco st)). }
  destruct (RE_AFI_HDR line); [apply sheet_extends_refl|].
  destruct (RE_RECO_HDR line); [apply sheet_extends_refl|].
  destruct (in_afi st).
  - destruct (fullmatch_paren line).
    + destruct (extract_ce_anywhere ucd line) as [[? c] e].
      destruct (last_afi_idx st) as [k|]; [|apply sheet_extends_refl].
      destruct (truthy c || truthy e); apply sheet_extends_refl.
    + destruct (RE_NUM_ITEM ucd line) as [[g1 body]|].
      * destruct (extract_ce_across_lines ucd lines i body) as [[[? ?] ?] j].
        apply sheet_extends_refl.
      * destruct (contains LPAREN line); [|apply sheet_extends_refl].
        destruct (extract_ce_across_lines ucd lines i line) as [[[? c] e] j].
        destruct (truthy c || truthy e); apply sheet_extends_refl.
  - destruct (in_reco st); [|apply sheet_extends_refl].
    destruct (RE_NUM_ITEM ucd line) as [[g1 g2]|]; apply sheet_extends_refl.
Qed.

Lemma run_extends lines : ∀ fuel i st,
  sheet_extends cols (ws st) (row st)
    (ws (run ucd cols src_file fuel lines i st)) (row (run ucd cols src_file fuel lines i st)).
Proof.
  induction fuel as [|f IH]; intros i st; simpl; [apply sheet_extends_refl|].
  destruct (lines !! i) as [line|]; [|apply sheet_extends_refl].
  pose proof (step_extends lines i line st) as Hs.
  destruct (step ucd cols src_file lines i line st) as [st' i']. simpl in Hs.
  eapply sheet_extends_trans; [exact Hs | apply IH].
Qed.

(** [process_file] only appends rows to the sheet: the row it returns is
    not before [start_row]; the rows below [start_row] and from the returned
    row on are as they were, and so is every cell outside the six columns;
    and every row in between has a value in each of the six columns. *)
Theorem process_file_appends (lines : list (list N)) (sheet : gmap (nat * nat) (list N))
    (start_row : nat) :
  sheet_extends cols sheet start_row
    (ws (process_lines ucd cols src_file lines sheet start_row))
    (process_file ucd cols src_file lines sheet start_row).
Proof.
  unfold process_file, process_lines.
  eapply sheet_extends_trans; [|apply flush_block_extends].
  apply (run_extends lines (length lines) 0 (initial sheet start_row)).
Qed.

End Rows.

(** ** The columns of the sheet *)

Section Columns.

Variable lower_hi : list N → list N.

Lemma header_key_None v : header_key lower_hi v = None ↔ v = CellOther true.
Proof. destruct v as [| s | []]; simpl; split; done. Qed.

Lemma header_names_None cells : ∀ col names,
  header_names lower_hi col cells names = None ↔ ∃ i, cells !! i = Some (CellOther true).
Proof.
  induction cells as [|c r IH]; intros col names; simpl.
  - split; [done | by intros [i Hi]].
  - destruct (header_key lower_hi c) as [v|] eqn:E.
    + rewrite IH. split.
      * intros [i Hi]. by exists (S i).
      * intros [[|i] Hi]; simpl in Hi; [|by exists i].
        injection Hi as ->. done.
    + apply header_key_None in E as ->. split; [|done]. intros _. by exists 0.
Qed.

(** A key no cell of the row has keeps the column it had. *)
Lemma header_names_absent k cells : ∀ col names m,
  (∀ i v, cells !! i = Some v → header_key lower_hi v ≠ Some k) →
  header_names lower_hi col cells names = Some m →
  m !! k = names !! k.
Proof.
  induction cells as [|c r IH]; intros col names m Hk; simpl.
  - by intros [= <-].
  - destruct (header_key lower_hi c) as [v|] eqn:E; [|done]. intros Hm.
    rewrite (IH _ _ _ (λ i, Hk (S i)) Hm).
    destruct (truthy v); [|done]. apply lookup_insert_ne.
    intros ->. by apply (Hk 0 c).
Qed.

(** A key takes the column of the last cell that has it. *)
Lemma header_names_present k cells : ∀ i col names m v,
  k ≠ [] →
  cells !! i = Some v → header_key lower_hi v = Some k →
  (∀ i' v', i < i' → cells !! i' = Some v' → header_key lower_hi v' ≠ Some k) →
  header_names lower_hi col cells names = Some m →
  m !! k = Some (col + i).
Proof.
  induction cells as [|c r IH]; intros i col names m v Hne Hi Hv Hlast; [done|].
  destruct i as [|i]; simpl in *.
  - injection Hi as ->. rewrite Hv. intros Hm.
    rewrite (header_names_absent k r _ _ m) with (2 := Hm).
    + destruct k; [done|]. simpl. rewrite lookup_insert_eq. f_equal. lia.
    + intros i' v' Hi'. apply (Hlast (S i')). lia. done.
  - destruct (header_key lower_hi c) as [v0|] eqn:E; [|done]. intros Hm.
    rewrite (IH i (S col) _ m v Hne Hi Hv) with (2 := Hm).
    + f_equal. lia.
    + intros i' v' Hlt. apply (Hlast (S i')). lia.
Qed.

Lemma names_last_column header names k c :
  k ≠ [] → header_names lower_hi 1 header ∅ = Some names →
  last_column_of lower_hi header k c → names !! k = Some c.
Proof.
  intros Hne Hn (Hc & (v & Hv & Hk) & Hlast).
  rewrite (header_names_present k header (c - 1) 1 ∅ names v Hne Hv Hk) with (2 := Hn).
  - f_equal. lia.
  - intros i' v' Hlt Hi'. apply (Hlast (S i')); [lia|]. by rewrite Nat.sub_1_r.
Qed.

Lemma names_no_column header names k :
  header_names lower_hi 1 header ∅ = Some names →
  (∀ i v, header !! i = Some v → header_key lower_hi v ≠ Some k) → names !! k = None.
Proof. intros Hn Hk. by rewrite (header_names_absent k header 1 ∅ names Hk Hn). Qed.

(** [detect_columns] raises exactly when a cell of the header row holds a
    true value that is not a text.  Otherwise each of the six columns is
    the last column of the header row whose text, stripped and in lower
    case, is the name of the column, and the default of that name (1, 2, 3,
    4, 5 and 7) when the row has no such cell. *)
Theorem detect_columns_spec (header : list cell_value) :
  (detect_columns lower_hi header = None ↔ ∃ i, header !! i = Some (CellOther true))
  ∧ ∀ cols, detect_columns lower_hi header = Some cols →
      Forall (λ '(k, d, f),
                (∀ c, last_column_of lower_hi header k c → f cols = c)
                ∧ ((∀ i v, header !! i = Some v → header_key lower_hi v ≠ Some k) → f cols = d))
        [(u "afi", 1, col_afi); (u "classification", 2, col_class);
         (u "recommendation", 3, col_reco); (u "entity", 4, col_entity);
         (u "ee/fa", 5, col_process); (u "source file", 7, col_file)].
Proof.
  unfold detect_columns. split.
  - rewrite <- (header_names_None header 1 ∅).
    destruct (header_names lower_hi 1 header ∅); simpl; split; done.
  - intros cols. destruct (header_names lower_hi 1 header ∅) as [names|] eqn:E; [|done].
    simpl. intros [= <-].
    repeat apply Forall_cons_2; [..|apply Forall_nil_2]; simpl; split.
    all: first [ intros c Hc;
                 pose proof (λ Hne, names_last_column header names _ c Hne E Hc) as Hn;
                 by rewrite Hn
               | intros Hk; by rewrite (names_no_column _ _ _ E Hk) ].
Qed.

(** A sheet the program has just created: its header row is [HEADERS], and
    the columns detected from it are 1 to 6, the file name in column 6
    and not in the default 7; they are pairwise distinct; and the first row
    written is row 2.  Whatever the sheet, the first row written is after
    the rows in use and never the header row. *)
Theorem fresh_sheet_layout (max_row : nat) :
  (∃ cols, detect_columns lower_hi (CellText <$> HEADERS) = Some cols
     ∧ column_list cols = [1; 2; 3; 4; 5; 6]
     ∧ NoDup (column_list cols))
  ∧ next_row 1 = 2
  ∧ max_row < next_row max_row ∧ 2 ≤ next_row max_row.
Proof.
  split.
  - eexists. split; [vm_compute; reflexivity|]. split; [reflexivity|].
    unfold column_list. simpl.
    repeat (apply NoDup_cons; split; [rewrite ?elem_of_cons, elem_of_nil; lia|]).
    apply NoDup_nil_2.
  - unfold next_row. lia.
Qed.

End Columns.

Lemma detect_columns_spec_witness :
  let header := [CellText (u " Entity "); CellText (u "AFI"); CellNone; CellText (u "Afi");
                 CellOther false; CellText (u "Source File")] in
  detect_columns id header =
    Some {| col_afi := 4; col_class := 2; col_reco := 3; col_entity := 1; col_process := 5;
            col_file := 6 |}
  ∧ last_column_of id header (u "afi") 4
  ∧ ∀ cols, detect_columns id header = Some cols → col_afi cols = 4.
Proof.
  intros header.
  assert (last_column_of id header (u "afi") 4) as Hl.
  { split; [lia|]. split; [by exists (CellText (u "Afi"))|].
    intros c' v Hlt Hv.
    destruct c' as [|[|[|[|[|[|[|c']]]]]]]; try lia; simpl in Hv; try done;
      injection Hv as <-; vm_compute; discriminate. }
  split; [vm_compute; reflexivity|]. split; [exact Hl|].
  intros cols Hcols.
  destruct (detect_columns_spec id header) as [_ H].
  specialize (H cols Hcols). apply Forall_cons_1 in H as [[H _] _]. exact (H 4 Hl).
Defined.

(** ** The readers *)

Lemma splitlines_from_app cur a r :
  no_linebreak a → splitlines_from cur false (a ++ r) = splitlines_from (cur ++ a) false r.
Proof.
  intros Ha. revert cur. induction Ha as [|c a Hc Ha IH]; intros cur; simpl.
  - by rewrite app_nil_r.
  - rewrite Hc, IH. by rewrite <- app_assoc.
Qed.

Lemma splitlines_from_no_linebreak s : ∀ cur b,
  no_linebreak cur → Forall no_linebreak (splitlines_from cur b s).
Proof.
  induction s as [|c r IH]; intros cur b Hcur; simpl.
  - destruct cur; simpl; [constructor | constructor; [exact Hcur | constructor]].
  - destruct (b && (c =? LF)%N); [by apply IH|].
    destruct (is_linebreak c) eqn:E.
    + constructor; [done|]. apply IH. constructor.
    + apply IH, Forall_app. split; [done|]. constructor; [exact E | constructor].
Qed.

Lemma splitlines_join_LF (lines : list (list N)) :
  Forall no_linebreak lines → (∀ l, last lines = Some l → l ≠ []) →
  splitlines_from [] false (join [LF] lines) = lines.
Proof.
  induction 1 as [|l rest Hl Hrest IH]; intros Hlast; [done|].
  destruct rest as [|l2 rest].
  - simpl. rewrite <- (app_nil_r l) at 1. rewrite splitlines_from_app by done. simpl.
    destruct l; [by destruct (Hlast [])|done].
  - change (join [LF] (l :: l2 :: rest)) with (l ++ [LF] ++ join [LF] (l2 :: rest)).
    rewrite splitlines_from_app by done. simpl. f_equal. apply IH.
    intros l' Hl'. apply Hlast. by rewrite last_cons_cons.
Qed.

(** [str.splitlines] gives lines without line boundaries; a carriage
    return with a line feed right after it is one boundary, as a line feed
    is; and it takes the lines joined by line feeds apart again, when none
    of them holds a boundary and the last one is not empty. *)
Theorem splitlines_lines (s : list N) (lines : list (list N)) :
  Forall no_linebreak (splitlines s)
  ∧ (∀ a r, no_linebreak a →
       splitlines (a ++ CR :: LF :: r) = a :: splitlines r
       ∧ splitlines (a ++ LF :: r) = a :: splitlines r)
  ∧ (Forall no_linebreak lines → (∀ l, last lines = Some l → l ≠ []) →
       splitlines (join [LF] lines) = lines).
Proof.
  split; [apply splitlines_from_no_linebreak; constructor|]. split.
  - intros a r Ha. unfold splitlines. by rewrite !splitlines_from_app.
  - apply splitlines_join_LF.
Qed.

Lemma splitlines_lines_witness :
  let lines := [u "1 - Late reports"; []; u "(Major - Ops)"] in
  Forall no_linebreak lines
  ∧ (∀ l, last lines = Some l → l ≠ [])
  ∧ splitlines (join [LF] lines) = lines.
Proof.
  intros lines.
  assert (Forall no_linebreak lines) as H1.
  { apply Forall_forall. intros l Hl. apply Forall_forall. intros c Hc.
    apply list_elem_of_In in Hl, Hc.
    apply (proj1 (forallb_forall (forallb (λ c, negb (is_linebreak c))) lines) eq_refl) in Hl.
    apply (proj1 (forallb_forall _ l) Hl) in Hc. by apply negb_true_iff. }
  assert (∀ l, last lines = Some l → l ≠ []) as H2 by (by intros l [= <-]).
  split; [exact H1|]. split; [exact H2|].
  exact (proj2 (proj2 (splitlines_lines [] lines)) H1 H2).
Defined.

Section ReaderLines.

Variable ucd : UnicodeData.

Lemma norm_clean_line (raw : list N) : norm ucd raw ≠ [] → clean_line (norm ucd raw).
Proof.
  intros Hne. destruct (norm_normalized ucd raw) as [Hz Hn Hr Ht Hd Hs Hst].
  split; [done|]. split; [|split; [done|]].
  - apply Forall_forall. intros c Hc.
    rewrite Forall_forall in Hz, Hn, Hr, Ht, Hd.
    repeat split; [| by apply Hn | by apply Hr | by apply Ht |].
    + apply contains_not_elem_of. by apply Hz.
    + intros Hin%contains_elem_of. by apply Hd.
  - unfold norm. apply strip_by_trimmed.
Qed.

Lemma filter_norm_clean (raws : list (list N)) :
  Forall clean_line (List.filter truthy (List.map (norm ucd) raws)).
Proof.
  apply Forall_forall. intros l Hl%list_elem_of_In%filter_In.
  destruct Hl as [Hin Ht]. apply in_map_iff in Hin as (raw & <- & _).
  apply norm_clean_line. by destruct (norm ucd raw).
Qed.

Lemma Forall_flat_map {A B} (P : B → Prop) (f : A → list B) (l : list A) :
  (∀ x, Forall P (f x)) → Forall P (flat_map f l).
Proof.
  intros H. induction l as [|x l IH]; simpl; [done|]. apply Forall_app. by split.
Qed.

Lemma page_lines_clean text : Forall clean_line (page_lines ucd text).
Proof.
  unfold page_lines. destruct (is_toc_page ucd _); [done|]. apply filter_norm_clean.
Qed.

(** Every line the readers hand to the parser is not empty and has the
    shape the normalizer gives; a line of a PDF is a line of one of its
    pages, and of one that is not taken for a table of contents. *)
Theorem reader_lines_clean (pages : list (option (list N))) (paragraphs : list (list N))
    (tables : list (list (list (list N)))) :
  Forall clean_line (yield_lines_pdf ucd pages)
  ∧ Forall clean_line (yield_lines_docx ucd paragraphs tables)
  ∧ ∀ l, l ∈ yield_lines_pdf ucd pages →
      ∃ text, text ∈ pages
        ∧ l ∈ nonempty_lines ucd (default [] text)
        ∧ is_toc_page ucd (nonempty_lines ucd (default [] text)) = false.
Proof.
  split; [|split].
  - apply Forall_flat_map, page_lines_clean.
  - apply Forall_app. split; [apply filter_norm_clean|].
    repeat (apply Forall_flat_map; intros ?). apply filter_norm_clean.
  - intros l Hl%list_elem_of_In. apply in_flat_map in Hl as (text & Hin & Hl).
    exists text. split; [by apply list_elem_of_In|]. unfold page_lines in Hl.
    destruct (is_toc_page ucd (nonempty_lines ucd (default [] text))); [done|].
    split; [by apply list_elem_of_In | done].
Qed.

(** A table cell or a page whose text is lines joined by line feeds gives
    the normalized lines that are not empty, in order; the page gives
    nothing when these lines are taken for a table of contents. *)
Theorem reader_text_lines (lines : list (list N)) :
  Forall no_linebreak lines → (∀ l, last lines = Some l → l ≠ []) →
  let text := join [LF] lines in
  let out := List.filter truthy (List.map (norm ucd) lines) in
  yield_lines_docx ucd [] [[[text]]] = out
  ∧ yield_lines_pdf ucd [Some text] = (if is_toc_page ucd out then [] else out).
Proof.
  intros Hl Hlast text out.
  assert (nonempty_lines ucd text = out) as E.
  { unfold nonempty_lines, text, splitlines. by rewrite splitlines_join_LF. }
  unfold yield_lines_docx, yield_lines_pdf, page_lines. simpl.
  rewrite !app_nil_r, E. done.
Qed.

End ReaderLines.

Lemma reader_text_lines_witness :
  let lines := [u "1 -  Late reports"; []; u " (Major - Ops)"] in
  Forall no_linebreak lines
  ∧ (∀ l, last lines = Some l → l ≠ [])
  ∧ yield_lines_docx ucd_fragment [] [[[join [LF] lines]]]
    = [u "1 - Late reports"; u "(Major - Ops)"]
  ∧ yield_lines_pdf ucd_fragment [Some (join [LF] lines)]
    = [u "1 - Late reports"; u "(Major - Ops)"].
Proof.
  intros lines.
  assert (Forall no_linebreak lines) as H1.
  { apply Forall_forall. intros l Hl. apply Forall_forall. intros c Hc.
    apply list_elem_of_In in Hl, Hc.
    apply (proj1 (forallb_forall (forallb (λ c, negb (is_linebreak c))) lines) eq_refl) in Hl.
    apply (proj1 (forallb_forall _ l) Hl) in Hc. by apply negb_true_iff. }
  assert (∀ l, last lines = Some l → l ≠ []) as H2 by (by intros l [= <-]).
  split; [exact H1|]. split; [exact H2|].
  destruct (reader_text_lines ucd_fragment lines H1 H2) as [Hd Hp].
  split; [rewrite Hd | rewrite Hp]; reflexivity.
Defined.

(** ** The loop ends *)

